(** * contactEditor: the contact merge workflow

    A shallow embedding of [src/app/contact/factories/contactEditor.js]:
    [summarizeMergeResults], [updateAndRemove], [mergeProgressAnnouncer]
    and [merge], with the promise plumbing made explicit.

    - An [async] function body is a tree of store calls ([Async]); awaiting a
      rejected promise throws, [try_catch] is the source's [try]/[catch].
    - [merge] runs its group actions concurrently: the environment decides in
      which order the pending store calls settle (a [schedule]); every
      notification and collaborator call is appended to a chronological log.
    - Counters are JavaScript numbers.  All operands the code meets are
      integers far below 2^53, where double arithmetic is exact, so finite
      values are [Z]; the non-finite results of a division by zero are kept
      ([num]).

    The editor's other operations ([create], [update], [remove] with
    [requestDeletion] and [confirmDeletion], and the listener on 'contacts')
    follow in [Module Editor], and after them the [squireToolbar] directive
    of the same source file: the direction attribute of a Squire path, the
    class name computed on a path change and the class list kept in step with
    the editor state. *)

From Stdlib Require Import ZArith List String Ascii Bool Lia Permutation Sorted.
Import ListNotations.
Open Scope string_scope.
Open Scope list_scope.
Open Scope Z_scope.

(** ** Data model *)

Definition ContactID := string.

(** A contact record as the editor sees it: the code only passes it along. *)
Record Contact := { ID : ContactID; vCard : string }.

(** The per-group argument of [updateAndRemove]: [{ update, remove }].
    A merge group always carries its [remove] array ([merge] reads
    [contacts[group].remove.length] without a default, line 147). *)
Record MergeGroup := { update : Contact; remove : list ContactID }.

(** The object [contacts] handed to [merge]: its own keys in [Object.keys]
    order, each with its group. *)
Definition MergeRequest := list (string * MergeGroup).

(** The object returned by [updateAndRemove].  [updated] is [undefined] on the
    conflict path; the [catch] branch builds an object without a [removed]
    key.  An entry of [errors] is what was read from a [message] or [Error]
    property: a string, or [undefined] ([None]) where the property is
    missing. *)
Record GroupOutcome := {
  total : Z;
  updated : option Contact;
  removed : option (list ContactID);
  errors : option (list (option string))
}.

(** The accumulator [agg] of [summarizeMergeResults]. *)
Record AggregateResult := {
  agg_updated : list Contact;
  agg_removed : list ContactID;
  agg_errors : list (option string);
  agg_total : Z
}.

(** ** JavaScript numbers met by the progress counter *)

Inductive num := Fin (z : Z) | PInf | NInf | NaN.

(** [Math.floor(x / y)] for integer operands (the zero divisor is [+0]). *)
Definition Math_floor_div (x y : Z) : num :=
  if y =? 0 then
    (if x =? 0 then NaN else if 0 <? x then PInf else NInf)
  else Fin (x / y).

(** [a + b]. *)
Definition num_add (a b : num) : num :=
  match a, b with
  | NaN, _ | _, NaN => NaN
  | PInf, NInf | NInf, PInf => NaN
  | PInf, _ | _, PInf => PInf
  | NInf, _ | _, NInf => NInf
  | Fin x, Fin y => Fin (x + y)
  end.

(** ** summarizeMergeResults (lines 58-74) *)

(** One turn of the reducer callback; every [if] tests truthiness. *)
Definition summarize_step (agg : AggregateResult) (result : GroupOutcome)
  : AggregateResult :=
  {| agg_updated :=
       match updated result with
       | Some c => agg_updated agg ++ [c]
       | None => agg_updated agg
       end;
     agg_removed :=
       match removed result with
       | Some ids => agg_removed agg ++ ids
       | None => agg_removed agg
       end;
     agg_errors :=
       match errors result with
       | Some msgs => agg_errors agg ++ msgs
       | None => agg_errors agg
       end;
     agg_total :=
       if total result =? 0 then agg_total agg
       else agg_total agg + total result |}.

Definition empty_summary : AggregateResult :=
  {| agg_updated := []; agg_removed := []; agg_errors := []; agg_total := 0 |}.

Definition summarizeMergeResults (results : list GroupOutcome)
  : AggregateResult :=
  fold_left summarize_step results empty_summary.

(** ** Promises and the record store *)

(** [undefined] and [null]. *)
Inductive Nullish := JsUndefined | JsNull.

(** What a promise rejects with, or a statement throws: an instance of
    [ContactUpdateError] (helpers/errors), any other value that is neither
    [undefined] nor [null], given by its [message] property ([None] where it
    has none), or no reason at all ([Promise.reject()], [reject(null)]).
    The code only copies the value of [message] into the outcome (line 102)
    and never inspects it, so a string stands for whatever the property
    holds. *)
Inductive Thrown :=
| ContactUpdateError (msg : string)
| OtherError (msg : option string)
| NoReason (value : Nullish).

(** The [TypeError] raised by reading a property of [undefined] or [null];
    the wording of its message is the engine's (V8's here) and nothing below
    depends on it. *)
Definition TypeError_reading (property : string) (value : Nullish) : Thrown :=
  OtherError
    (Some (String.append "Cannot read properties of "
             (String.append (match value with
                             | JsUndefined => "undefined"
                             | JsNull => "null"
                             end)
                (String.append " (reading '" (String.append property "')"))))).

(** [error.message]: the value read, or the error raised by the reading. *)
Definition message (error : Thrown) : option string + Thrown :=
  match error with
  | ContactUpdateError msg => inl (Some msg)
  | OtherError msg => inl msg
  | NoReason value => inr (TypeError_reading "message" value)
  end.

(** [error instanceof ContactUpdateError]; [false] for a primitive. *)
Definition instanceof_ContactUpdateError (error : Thrown) : bool :=
  match error with
  | ContactUpdateError _ => true
  | OtherError _ => false
  | NoReason _ => false
  end.

Inductive Settled (A : Type) : Type :=
| Fulfilled (value : A)
| Rejected (error : Thrown).
Arguments Fulfilled {A} value.
Arguments Rejected {A} error.

(** [Contact.update] resolves with [{ Contact, cards }] (line 177). *)
Record UpdateResponse := { upd_Contact : Contact; upd_cards : list string }.

(** One entry of the [errors] array answered by [Contact.remove]; line 96
    reads its [Error] property, [undefined] where the entry has none. *)
Record RemoveError := { err_ID : ContactID; Error : option string }.

(** [Contact.remove] resolves with [{ removed, errors }]; either key may be
    missing, which the destructuring defaults to [[]] (line 90). *)
Record RemoveResponse := {
  resp_removed : option (list ContactID);
  resp_errors : option (list RemoveError)
}.

(** The body of an [async] function over the record store.  A call node is a
    store call that has been made and whose promise is pending; [k] is the
    rest of the body once that promise settles. *)
Inductive Async (A : Type) : Type :=
| Return (value : A)
| Throw (error : Thrown)
| Call_update (contact : Contact) (k : Settled UpdateResponse -> Async A)
| Call_remove (IDs : list ContactID) (k : Settled RemoveResponse -> Async A).
Arguments Return {A} value.
Arguments Throw {A} error.
Arguments Call_update {A} contact k.
Arguments Call_remove {A} IDs k.

(** [await p]: the value of a fulfilled promise, a throw for a rejected one. *)
Definition await {A} (s : Settled A) : Async A :=
  match s with
  | Fulfilled value => Return value
  | Rejected error => Throw error
  end.

(** [await Contact.update(contact)] and [await Contact.remove({ IDs })]. *)
Definition await_Contact_update (contact : Contact) : Async UpdateResponse :=
  Call_update contact await.

Definition await_Contact_remove (IDs : list ContactID) : Async RemoveResponse :=
  Call_remove IDs await.

Fixpoint bind {A B} (m : Async A) (f : A -> Async B) : Async B :=
  match m with
  | Return value => f value
  | Throw error => Throw error
  | Call_update contact k => Call_update contact (fun s => bind (k s) f)
  | Call_remove IDs k => Call_remove IDs (fun s => bind (k s) f)
  end.

(** [try { m } catch (error) { handler }]. *)
Fixpoint try_catch {A} (m : Async A) (handler : Thrown -> Async A) : Async A :=
  match m with
  | Return value => Return value
  | Throw error => handler error
  | Call_update contact k => Call_update contact (fun s => try_catch (k s) handler)
  | Call_remove IDs k => Call_remove IDs (fun s => try_catch (k s) handler)
  end.

Notation "x <- m ;; k" := (bind m (fun x => k))
  (at level 61, m at next level, right associativity).

(** [x = []] as a destructuring default. *)
Definition or_empty {A} (x : option (list A)) : list A :=
  match x with
  | Some l => l
  | None => []
  end.

(** ** updateAndRemove (lines 82-105) *)

Definition updateAndRemove (group : MergeGroup) : Async GroupOutcome :=
  let total := 1 + Z.of_nat (List.length (remove group)) in
  try_catch
    (_ <- await_Contact_update (update group) ;;
     response <- await_Contact_remove (remove group) ;;
     let removed := or_empty (resp_removed response) in
     let errors := or_empty (resp_errors response) in
     Return {| total := total;
               updated := Some (update group);
               removed := Some removed;
               errors := Some (map Error errors) |})
    (fun error =>
     let updated := if instanceof_ContactUpdateError error then None
                    else Some (update group) in
     match message error with
     | inl text =>
         Return {| total := total;
                   updated := updated;
                   removed := None;
                   errors := Some [text] |}
     | inr raised => Throw raised
     end).

(** ** Notifications and collaborator calls *)

(** The values that travel in notifications and settle [merge]'s promise. *)
Inductive Value :=
| VUndefined
| VContact (contact : Contact)
| VSummary (summary : AggregateResult)
| VFunction (name : string).

Inductive Event :=
| LoaderModalActivate                          (* contactLoaderModal.activate, mode 'merge' *)
| StoreUpdate (contact : Contact)              (* Contact.update(contact) *)
| StoreRemove (IDs : list ContactID)           (* Contact.remove({ IDs }) *)
| EmitProgressBar (progress : num)             (* 'progressBar', contactsProgressBar *)
| EmitContactUpdated (contact : Value)         (* 'contacts', contactUpdated *)
| EmitContactsUpdated                          (* 'contacts', contactsUpdated *)
| EmitContactsMerged (data : AggregateResult)  (* 'contacts', contactsMerged *)
| EventManagerCall                             (* eventManager.call() *)
| NetworkTrack.                                (* networkActivityTracker.track(promise) *)

(** A store call made when an action reaches a call node. *)
Definition call_event {A} (a : Async A) : list Event :=
  match a with
  | Call_update contact _ => [StoreUpdate contact]
  | Call_remove IDs _ => [StoreRemove IDs]
  | _ => []
  end.

(** ** One action run on its own against a store *)

Record Store := {
  Contact_update : Contact -> Settled UpdateResponse;
  Contact_remove : list ContactID -> Settled RemoveResponse
}.

(** Runs an async body to its settlement; the first component lists the store
    calls it made, in order. *)
Fixpoint run_async {A} (store : Store) (a : Async A) : list Event * Settled A :=
  match a with
  | Return value => ([], Fulfilled value)
  | Throw error => ([], Rejected error)
  | Call_update contact k =>
      let '(calls, s) := run_async store (k (Contact_update store contact)) in
      (StoreUpdate contact :: calls, s)
  | Call_remove IDs k =>
      let '(calls, s) := run_async store (k (Contact_remove store IDs)) in
      (StoreRemove IDs :: calls, s)
  end.

(** ** mergeProgressAnnouncer (lines 112-126) *)

(** The [then] callback run when one action resolves with [result].  The
    identifier [update] in its body is not bound by [mergeProgressAnnouncer]
    nor by the callback: it is the factory's function [update] of line 176. *)
Definition announce (total_ : Z) (result : GroupOutcome) (progress : num)
  : num * list Event :=
  let progress := num_add progress (Math_floor_div (total result * 100) total_) in
  (progress, [EmitProgressBar progress; EmitContactUpdated (VFunction "update")]).

(** [mergeProgressAnnouncer({ actions, total })] observed on the results with
    which the actions resolve, in the order they resolve: the final value of
    the closure variable [progress] and everything emitted. *)
Definition mergeProgressAnnouncer (resolved : list GroupOutcome) (total_ : Z)
  : num * list Event :=
  fold_left
    (fun '(progress, emitted) result =>
       let '(progress', evs) := announce total_ result progress in
       (progress', emitted ++ evs))
    resolved (Fin 0, []).

(** The progress values among some events. *)
Fixpoint progress_values (evs : list Event) : list num :=
  match evs with
  | [] => []
  | EmitProgressBar p :: rest => p :: progress_values rest
  | _ :: rest => progress_values rest
  end.

(** The payloads of the 'contactUpdated' notifications among some events. *)
Fixpoint contact_updates (evs : list Event) : list Value :=
  match evs with
  | [] => []
  | EmitContactUpdated v :: rest => v :: contact_updates rest
  | _ :: rest => contact_updates rest
  end.

(** ** merge (lines 133-169) *)

Inductive PromiseState (A : Type) : Type :=
| Pending
| Resolved (s : Settled A).
Arguments Pending {A}.
Arguments Resolved {A} s.

(** A store promise settling for one of the pending calls. *)
Inductive Response :=
| UpdateSettled (s : Settled UpdateResponse)
| RemoveSettled (s : Settled RemoveResponse).

(** The rest of an action once its pending call settles with [r]; a
    settlement that matches no pending call has no effect. *)
Definition resume {A} (a : Async A) (r : Response) : option (Async A) :=
  match a, r with
  | Call_update _ k, UpdateSettled s => Some (k s)
  | Call_remove _ k, RemoveSettled s => Some (k s)
  | _, _ => None
  end.

(** What the environment decides during a run: the order in which pending
    store calls settle (each entry names an action by its index in [actions])
    and the settlement of the final [eventManager.call()]. *)
Record Environment := {
  schedule : list (nat * Response);
  sync : Settled Value
}.

Record MergeState := {
  actions : list (Async GroupOutcome);  (* const actions *)
  progress : num;                       (* the announcer's let progress *)
  promise : PromiseState Value;         (* the promise merge returns *)
  log : list Event                      (* everything observable so far *)
}.

Fixpoint replace_nth {A} (i : nat) (x : A) (l : list A) : list A :=
  match l, i with
  | [], _ => []
  | _ :: rest, O => x :: rest
  | y :: rest, S j => y :: replace_nth j x rest
  end.

(** [Promise.all(actions)] once every action has resolved. *)
Fixpoint Promise_all (acts : list (Async GroupOutcome))
  : option (list GroupOutcome) :=
  match acts with
  | [] => Some []
  | Return result :: rest =>
      match Promise_all rest with
      | Some results => Some (result :: results)
      | None => None
      end
  | _ :: _ => None
  end.

(** [groups.reduce((sum, group) => sum + contacts[group].remove.length + 1, 0)]. *)
Definition merge_total (contacts : MergeRequest) : Z :=
  fold_left
    (fun sum (entry : string * MergeGroup) =>
       sum + Z.of_nat (List.length (remove (snd entry))) + 1)
    contacts 0.

(** The synchronous part of [merge]: the modal is activated, every
    [updateAndRemove] runs up to its first [await] (so every [Contact.update]
    call is made, in key order), the announcer and [Promise.all] are wired
    and the promise is handed to the tracker. *)
Definition launch (contacts : MergeRequest) : MergeState :=
  let actions := map (fun entry : string * MergeGroup => updateAndRemove (snd entry))
                     contacts in
  {| actions := actions;
     progress := Fin 0;
     promise := Pending;
     log := [LoaderModalActivate] ++ flat_map call_event actions ++ [NetworkTrack] |}.

(** One store promise settles: the action concerned runs on to its next
    [await] or to its end.  When it resolves, the announcer's callback runs;
    when it rejects, [Promise.all] rejects and so does [merge]'s promise.
    The continuation and the callbacks it triggers are taken as one step:
    they are microtasks of the same action, and no callback of the code reads
    what another action has written except the counter, which each callback
    updates in a single statement. *)
Definition settle (total_ : Z) (st : MergeState) (ev : nat * Response)
  : MergeState :=
  match nth_error (actions st) (fst ev) with
  | None => st
  | Some a =>
      match resume a (snd ev) with
      | None => st
      | Some a' =>
          let acts := replace_nth (fst ev) a' (actions st) in
          match a' with
          | Return result =>
              let '(p, evs) := announce total_ result (progress st) in
              {| actions := acts; progress := p; promise := promise st;
                 log := log st ++ evs |}
          | Throw error =>
              {| actions := acts; progress := progress st;
                 promise := match promise st with
                            | Pending => Resolved (Rejected error)
                            | settled => settled
                            end;
                 log := log st |}
          | _ =>
              {| actions := acts; progress := progress st; promise := promise st;
                 log := log st ++ call_event a' |}
          end
      end
  end.

(** The two [then] callbacks chained on [Promise.all(actions)]: they run once
    every action has resolved, and the promise settles as
    [eventManager.call()] does. *)
Definition finish (sync_ : Settled Value) (st : MergeState) : MergeState :=
  match promise st, Promise_all (actions st) with
  | Pending, Some results =>
      let summarizedResults := summarizeMergeResults results in
      {| actions := actions st;
         progress := progress st;
         promise := Resolved sync_;
         log := log st ++ [EmitContactsUpdated;
                           EmitContactsMerged summarizedResults;
                           EventManagerCall] |}
  | _, _ => st
  end.

(** The state of the run before the chained callbacks: every scheduled
    settlement has been delivered. *)
Definition settle_all (contacts : MergeRequest) (sched : list (nat * Response))
  : MergeState :=
  fold_left (settle (merge_total contacts)) sched (launch contacts).

Definition merge (contacts : MergeRequest) (env : Environment) : MergeState :=
  finish (sync env) (settle_all contacts (schedule env)).

(** ** Notions used to state the properties *)

(** Whatever the store answers, every result the action can return
    satisfies [P]. *)
Fixpoint results_satisfy {A} (P : A -> Prop) (a : Async A) : Prop :=
  match a with
  | Return value => P value
  | Throw _ => True
  | Call_update _ k => forall s, results_satisfy P (k s)
  | Call_remove _ k => forall s, results_satisfy P (k s)
  end.

(** A settlement other than a rejection without a reason. *)
Definition reasoned {A} (s : Settled A) : Prop :=
  match s with
  | Rejected (NoReason _) => False
  | _ => True
  end.

(** A store none of whose promises is rejected without a reason. *)
Definition reasoned_store (store : Store) : Prop :=
  (forall contact, reasoned (Contact_update store contact)) /\
  (forall IDs, reasoned (Contact_remove store IDs)).

(** The action does not throw as long as the settlements it is given are
    reasoned. *)
Fixpoint resolves_when_reasoned {A} (a : Async A) : Prop :=
  match a with
  | Return _ => True
  | Throw _ => False
  | Call_update _ k => forall s, reasoned s -> resolves_when_reasoned (k s)
  | Call_remove _ k => forall s, reasoned s -> resolves_when_reasoned (k s)
  end.

Definition thrown {A} (a : Async A) : Prop :=
  match a with
  | Throw _ => True
  | _ => False
  end.

(** The units of work of one group: the update plus the removals. *)
Definition group_total (group : MergeGroup) : Z :=
  1 + Z.of_nat (List.length (remove group)).

Definition sum_Z (l : list Z) : Z := fold_right Z.add 0 l.

(** The percentage each group contributes when it resolves, in key order. *)
Definition contributions (contacts : MergeRequest) : list Z :=
  map (fun entry : string * MergeGroup =>
         group_total (snd entry) * 100 / merge_total contacts)
      contacts.

(** The contributions of the actions that have resolved so far. *)
Definition resolved_progress (total_ : Z) (acts : list (Async GroupOutcome)) : Z :=
  sum_Z (map (fun a => match a with
                       | Return result => total result * 100 / total_
                       | _ => 0
                       end) acts).

Definition option_list {A} (x : option A) : list A :=
  match x with
  | Some a => [a]
  | None => []
  end.

(** The settlements a store gives an action, call after call. *)
Fixpoint responses {A} (store : Store) (a : Async A) : list Response :=
  match a with
  | Call_update contact k =>
      let s := Contact_update store contact in
      UpdateSettled s :: responses store (k s)
  | Call_remove IDs k =>
      let s := Contact_remove store IDs in
      RemoveSettled s :: responses store (k s)
  | _ => []
  end.

(** The schedule in which the groups are answered one after the other,
    starting with the action of index [i]. *)
Fixpoint sequential_schedule (store : Store) (i : nat) (groups : MergeRequest)
  : list (nat * Response) :=
  match groups with
  | [] => []
  | entry :: rest =>
      map (pair i) (responses store (updateAndRemove (snd entry)))
      ++ sequential_schedule store (S i) rest
  end.

(** Sample data for the closed examples. *)
Definition contact_C1 : Contact := {| ID := "C1"; vCard := "FN:Ada" |}.
Definition contact_C2 : Contact := {| ID := "C2"; vCard := "FN:Bob" |}.
Definition contact_C3 : Contact := {| ID := "C3"; vCard := "FN:Cy" |}.

Definition update_ok : Settled UpdateResponse :=
  Fulfilled {| upd_Contact := contact_C1; upd_cards := [] |}.

Definition remove_ok (IDs : list ContactID) : Settled RemoveResponse :=
  Fulfilled {| resp_removed := Some IDs; resp_errors := Some [] |}.

(** A store that accepts every update and removes every identifier. *)
Definition obliging_store : Store :=
  {| Contact_update := fun _ => update_ok; Contact_remove := remove_ok |}.

(** A store on which every update is refused as a conflict. *)
Definition conflicting_store : Store :=
  {| Contact_update := fun _ => Rejected (ContactUpdateError "conflict");
     Contact_remove := remove_ok |}.

(** A store that updates, removes the first identifier and reports the others
    as not found. *)
Definition partial_store : Store :=
  {| Contact_update := fun _ => update_ok;
     Contact_remove := fun IDs =>
       Fulfilled {| resp_removed := Some (firstn 1 IDs);
                    resp_errors :=
                      Some (map (fun id => {| err_ID := id; Error := Some "not found" |})
                                (skipn 1 IDs)) |} |}.

Definition group_A : MergeGroup := {| update := contact_C1; remove := ["D1"; "D2"] |}.
Definition group_B : MergeGroup := {| update := contact_C2; remove := ["D3"] |}.
Definition single (contact : Contact) : MergeGroup :=
  {| update := contact; remove := [] |}.

Definition request_AB : MergeRequest := [("a", group_A); ("b", group_B)].
Definition request_thirds : MergeRequest :=
  [("x", single contact_C1); ("y", single contact_C2); ("z", single contact_C3)].

Definition outcome_A : GroupOutcome :=
  {| total := 3; updated := Some contact_C1; removed := Some ["D1"; "D2"];
     errors := Some [] |}.
Definition outcome_B : GroupOutcome :=
  {| total := 2; updated := Some contact_C2; removed := Some ["D3"];
     errors := Some [Some "not found"] |}.

Definition request_one : MergeRequest := [("g", single contact_C1)].

(** Runs in which the store obliges, the groups are answered in key order and
    the final [eventManager.call()] resolves with [undefined]. *)
Definition env_of (contacts : MergeRequest) : Environment :=
  {| schedule := sequential_schedule obliging_store 0 contacts;
     sync := Fulfilled VUndefined |}.

(** How many actions have resolved. *)
Definition resolved_count (acts : list (Async GroupOutcome)) : Z :=
  sum_Z (map (fun a => match a with Return _ => 1 | _ => 0 end) acts).

(** What the announcer's callbacks emit, among some events. *)
Definition announcer_events (evs : list Event) : list Event :=
  filter (fun e => match e with
                   | EmitProgressBar _ | EmitContactUpdated _ => true
                   | _ => false
                   end) evs.

(** Every action stays one of its group's, and the promise is pending until
    the end unless an action has thrown, in which case it is rejected with
    what one of them threw. *)
Definition run_invariant (contacts : MergeRequest) (st : MergeState) : Prop :=
  Forall2 (fun (entry : string * MergeGroup) a =>
             results_satisfy (fun outcome => total outcome = group_total (snd entry)) a)
          contacts (actions st)
  /\ ((promise st = Pending /\ Forall (fun a => ~ thrown a) (actions st)) \/
      (exists error, promise st = Resolved (Rejected error) /\
                     In (Throw error) (actions st))).

(** ** Further notions about merge runs *)

(** The records handed to [Contact.update] and the identifier lists handed to
    [Contact.remove], among some events. *)
Fixpoint store_updates (evs : list Event) : list Contact :=
  match evs with
  | [] => []
  | StoreUpdate contact :: rest => contact :: store_updates rest
  | _ :: rest => store_updates rest
  end.

Fixpoint store_removes (evs : list Event) : list (list ContactID) :=
  match evs with
  | [] => []
  | StoreRemove IDs :: rest => IDs :: store_removes rest
  | _ :: rest => store_removes rest
  end.

(** What the callbacks chained on [Promise.all] emit and call. *)
Definition closing_events (evs : list Event) : list Event :=
  filter (fun e => match e with
                   | EmitContactsUpdated | EmitContactsMerged _ | EventManagerCall => true
                   | _ => false
                   end) evs.

(** Every action can only return results that [P] relates to its group. *)
Definition actions_satisfy (P : MergeGroup -> GroupOutcome -> Prop)
    (contacts : MergeRequest) (acts : list (Async GroupOutcome)) : Prop :=
  Forall2 (fun (entry : string * MergeGroup) a => results_satisfy (P (snd entry)) a)
          contacts acts.

(** Where an [updateAndRemove] action of [group] can be: waiting for its
    update, waiting for its removal, or done. *)
Definition returned {A} (a : Async A) : Prop :=
  match a with
  | Return _ => True
  | _ => False
  end.

Definition removing (group : MergeGroup) (a : Async GroupOutcome) : Prop :=
  match a with
  | Call_remove IDs k => IDs = remove group /\ forall s, returned (k s) \/ thrown (k s)
  | _ => False
  end.

Definition stage (group : MergeGroup) (a : Async GroupOutcome) : Prop :=
  match a with
  | Call_update contact k =>
      contact = update group /\
      forall s, returned (k s) \/ thrown (k s) \/ removing group (k s)
  | Call_remove _ _ => removing group a
  | Return _ => True
  | Throw _ => True
  end.

(** The identifier lists of the groups whose update is still pending. *)
Fixpoint awaiting_update (contacts : MergeRequest) (acts : list (Async GroupOutcome))
  : list (list ContactID) :=
  match contacts, acts with
  | entry :: contacts', Call_update _ _ :: acts' =>
      remove (snd entry) :: awaiting_update contacts' acts'
  | _ :: contacts', _ :: acts' => awaiting_update contacts' acts'
  | _, _ => []
  end.

(** The progress values emitted so far are finite, never decrease and stay
    between 0 and the counter [P]. *)
Definition progress_history (P : Z) (evs : list Event) : Prop :=
  exists ps, progress_values evs = map Fin ps /\
             StronglySorted Z.le ps /\
             Forall (fun p => 0 <= p <= P) ps.

Definition progress_invariant (total_ : Z) (st : MergeState) : Prop :=
  progress st = Fin (resolved_progress total_ (actions st)) /\
  0 <= resolved_progress total_ (actions st) /\
  progress_history (resolved_progress total_ (actions st)) (log st).

Definition awaits_update {A} (a : Async A) : Prop :=
  match a with
  | Call_update _ _ => True
  | _ => False
  end.

(** Each action is at a stage of its own group, every group's update has
    been requested once, and the removals requested so far, with those of the
    groups still awaiting their update and those that will not be requested
    ([skipped]), make up the groups' removals. *)
Definition store_invariant (contacts : MergeRequest) (st : MergeState) : Prop :=
  Forall2 (fun (entry : string * MergeGroup) a => stage (snd entry) a)
          contacts (actions st) /\
  store_updates (log st)
    = map (fun entry : string * MergeGroup => update (snd entry)) contacts /\
  exists skipped,
    Permutation (store_removes (log st)
                 ++ awaiting_update contacts (actions st) ++ skipped)
                (map (fun entry : string * MergeGroup => remove (snd entry)) contacts).

(** The results of the actions that have resolved, in array order. *)
Definition returned_results (acts : list (Async GroupOutcome)) : list GroupOutcome :=
  flat_map (fun a => match a with
                     | Return result => [result]
                     | _ => []
                     end) acts.

(** ** The editor's other operations: create, update, remove (lines 24-51, 176-276) *)

(** A request made to [gettextCatalog]; the catalog's answer is the text
    shown, so the request stands for it. *)
Inductive Text :=
| getString (msgid context : string)
| getPlural (n : nat) (msgid plural context : string).

(** The [contactIDs] of a deletion: the string ['all'] or an array. *)
Inductive Selection :=
| SelectAll
| SelectIDs (IDs : list ContactID).

(** [Contact.add] resolves with [{ created, errors, total }] (line 27). *)
Record AddResponse := {
  add_created : list Contact;
  add_errors : list string;
  add_total : Z
}.

(** Calls and notifications of these operations; [Did] takes over those
    already listed for [merge]. *)
Inductive Effect :=
| Did (e : Event)
| StoreAdd (contacts : list Contact)                 (* Contact.add(contacts) *)
| StoreClear                                         (* Contact.clear() *)
| LoaderModalImport                                  (* contactLoaderModal.activate, mode 'import' *)
| EmitContactCreated (created : list Contact) (errors : list string)
                     (total_ : Z) (mode : option string)
                                                     (* 'contacts', contactCreated *)
| EmitContactEdited (contact : Contact) (cards : list string)
                                                     (* 'contacts', contactUpdated, { contact, cards } *)
| NotificationSuccess (text : Text)                  (* notification.success(text) *)
| StateGo (state : string)                           (* $state.go(state) *)
| ConfirmModalActivate (title message_ : Text)       (* confirmModal.activate *)
| ConfirmModalDeactivate                             (* confirmModal.deactivate() *)
| ContactCacheClear                                  (* contactCache.clear() *)
| ContactEmailsClear.                                (* contactEmails.clear() *)

(** What the user does with the confirmation modal. *)
Inductive Decision := Confirms | Cancels | Leaves.

(** What the collaborators answer during one operation. *)
Record World := {
  store : Store;
  Contact_add : list Contact -> Settled AddResponse;
  Contact_clear : Settled unit;
  eventManager_call : Settled Value;
  decision : Decision
}.

(** An operation that returns a promise: what it does before returning
    ([now]), what its callbacks do afterwards ([later]), and how the promise
    settles. *)
Record Run (A : Type) := {
  now : list Effect;
  later : list Effect;
  settles : Settled A
}.
Arguments now {A} r.
Arguments later {A} r.
Arguments settles {A} r.

(** What an operation is seen to do, and what it returns: a promise with its
    settlement, or [undefined] ([None]). *)
Record Observed := {
  effects : list Effect;
  returns : option (Settled Value)
}.

(** The types on which the listener of line 271 acts. *)
Inductive Handler := RunsRemove | RunsUpdate | RunsCreate | RunsAdd.

Module Editor.


(** The store call of [requestDeletion] (line 212). *)
Definition deletion_call (IDs : Selection) : Effect :=
  match IDs with
  | SelectAll => StoreClear
  | SelectIDs l => Did (StoreRemove l)
  end.

(** [requestDeletion(IDs)]. *)
Definition requestDeletion (IDs : Selection) (w : World) : Run Value :=
  let all := match IDs with SelectAll => true | SelectIDs _ => false end in
  let call := deletion_call IDs in
  let answer : Settled unit :=
    match IDs with
    | SelectAll => Contact_clear w
    | SelectIDs l => match Contact_remove (store w) l with
                     | Fulfilled _ => Fulfilled tt
                     | Rejected error => Rejected error
                     end
    end in
  {| now := [call; Did NetworkTrack];
     later := match answer with
              | Fulfilled _ =>
                  (if all then [ContactCacheClear; ContactEmailsClear] else [])
                  ++ [Did EventManagerCall]
              | Rejected _ => []
              end;
     settles := match answer with
                | Fulfilled _ => eventManager_call w
                | Rejected error => Rejected error
                end |}.

(** The [message] and the [title] of [confirmDeletion] (lines 227-238). *)
Definition confirmation_message (contactIDs : Selection) : Text :=
  match contactIDs with
  | SelectAll =>
      getString "Are you sure you want to delete all your contacts?" "Info"
  | SelectIDs l =>
      getPlural (List.length l)
                "Are you sure you want to delete this contact?"
                "Are you sure you want to delete the selected contacts?"
                "Info"
  end.

Definition confirmation_title (contactIDs : Selection) : Text :=
  match contactIDs with
  | SelectAll => getString "Delete all" "Title"
  | SelectIDs _ => getString "Delete" "Title"
  end.

(** [confirmDeletion(contactIDs, callback)]: [callback] is given by what it
    does before returning and afterwards.  Nothing is returned. *)
Definition confirmDeletion (contactIDs : Selection) (callback : Run Value)
    (w : World) : list Effect :=
  let message_ := confirmation_message contactIDs in
  let title := confirmation_title contactIDs in
  ConfirmModalActivate title message_
  :: match decision w with
     | Confirms => now callback ++ [ConfirmModalDeactivate] ++ later callback
     | Cancels => [ConfirmModalDeactivate]
     | Leaves => []
     end.

(** The [success] text of [remove] (lines 192-195). *)
Definition success_text (contactIDs : Selection) : Text :=
  match contactIDs with
  | SelectAll => getString "All contacts deleted" "Success"
  | SelectIDs l =>
      getPlural (List.length l) "Contact deleted" "Contacts deleted" "Success"
  end.

(** [remove({ contactIDs = [], confirm = true })]. *)
Definition remove (contactIDs : option Selection) (confirm : option bool)
    (w : World) : Observed :=
  let contactIDs := match contactIDs with
                    | Some selection => selection
                    | None => SelectIDs []
                    end in
  let confirm := match confirm with
                 | Some b => b
                 | None => true
                 end in
  let success := success_text contactIDs in
  let process : Run Value :=
    let deletion := requestDeletion contactIDs w in
    {| now := now deletion;
       later := later deletion
                ++ match settles deletion with
                   | Fulfilled _ =>
                       [NotificationSuccess success; StateGo "secured.contacts"]
                   | Rejected _ => []
                   end;
       settles := match settles deletion with
                  | Fulfilled _ => Fulfilled VUndefined
                  | Rejected error => Rejected error
                  end |} in
  if confirm then
    {| effects := confirmDeletion contactIDs process w; returns := None |}
  else
    {| effects := now process ++ later process; returns := Some (settles process) |}.

(** [update({ contact })]. *)
Definition update (contact : Contact) (w : World) : Run Value :=
  {| now := [Did (StoreUpdate contact); Did NetworkTrack];
     later := match Contact_update (store w) contact with
              | Fulfilled response =>
                  [EmitContactEdited (upd_Contact response) (upd_cards response);
                   NotificationSuccess (getString "Contact edited" "Success message");
                   Did EventManagerCall]
              | Rejected _ => []
              end;
     settles := match Contact_update (store w) contact with
                | Fulfilled _ => eventManager_call w
                | Rejected error => Rejected error
                end |}.

(** The listener on 'contacts' (lines 271-276): the handlers a notification
    of the given type starts. *)
Definition on_contacts (type : string) : list Handler :=
  (if String.eqb type "deleteContacts" then [RunsRemove] else [])
  ++ (if String.eqb type "updateContact" then [RunsUpdate] else [])
  ++ (if String.eqb type "createContact" then [RunsCreate] else [])
  ++ (if String.eqb type "addContact" then [RunsAdd] else []).

End Editor.

(** The channel and the type of a notification, for the effects that are
    [$rootScope.$emit] calls. *)
Definition emitted_event (e : Event) : option (string * string) :=
  match e with
  | EmitProgressBar _ => Some ("progressBar", "contactsProgressBar")
  | EmitContactUpdated _ => Some ("contacts", "contactUpdated")
  | EmitContactsUpdated => Some ("contacts", "contactsUpdated")
  | EmitContactsMerged _ => Some ("contacts", "contactsMerged")
  | _ => None
  end.

Definition emitted (e : Effect) : option (string * string) :=
  match e with
  | Did e' => emitted_event e'
  | EmitContactCreated _ _ _ _ => Some ("contacts", "contactCreated")
  | EmitContactEdited _ _ => Some ("contacts", "contactUpdated")
  | _ => None
  end.

(** The calls that delete from the store. *)
Definition is_deletion (e : Effect) : bool :=
  match e with
  | StoreClear | Did (StoreRemove _) => true
  | _ => false
  end.

Definition is_cache_clear (e : Effect) : bool :=
  match e with
  | ContactCacheClear | ContactEmailsClear => true
  | _ => false
  end.

Definition is_success (e : Effect) : bool :=
  match e with
  | NotificationSuccess _ | StateGo _ => true
  | _ => false
  end.

(** The selection and the confirmation flag of [remove] after their
    defaults, and whether the store fulfils the deletion asked for. *)
Definition selected (contactIDs : option Selection) : Selection :=
  match contactIDs with
  | Some selection => selection
  | None => SelectIDs []
  end.

Definition asks_confirmation (confirm : option bool) : bool :=
  match confirm with
  | Some b => b
  | None => true
  end.

Definition deletion_fulfilled (selection : Selection) (w : World) : Prop :=
  match selection with
  | SelectAll => exists u, Contact_clear w = Fulfilled u
  | SelectIDs l => exists answer, Contact_remove (store w) l = Fulfilled answer
  end.

(** The deletion goes ahead: no confirmation is asked, or the user confirms. *)
Definition goes_ahead (confirm : option bool) (w : World) : Prop :=
  asks_confirmation confirm = false \/ decision w = Confirms.

Definition is_modal (e : Effect) : bool :=
  match e with
  | ConfirmModalActivate _ _ | ConfirmModalDeactivate => true
  | _ => false
  end.

(** Sample collaborators: everything is fulfilled and the user confirms. *)
Definition willing_world : World :=
  {| store := obliging_store;
     Contact_add := fun contacts =>
       Fulfilled {| add_created := contacts; add_errors := [];
                    add_total := Z.of_nat (List.length contacts) |};
     Contact_clear := Fulfilled tt;
     eventManager_call := Fulfilled VUndefined;
     decision := Confirms |}.

(** The same, but the final [eventManager.call()] is rejected. *)
Definition offline_world : World :=
  {| store := obliging_store;
     Contact_add := Contact_add willing_world;
     Contact_clear := Fulfilled tt;
     eventManager_call := Rejected (OtherError (Some "offline"));
     decision := Confirms |}.

(** The same as the first, but the user cancels. *)
Definition cancelling_world : World :=
  {| store := obliging_store;
     Contact_add := Contact_add willing_world;
     Contact_clear := Fulfilled tt;
     eventManager_call := Fulfilled VUndefined;
     decision := Cancels |}.

(** ** squireToolbar: the text direction of a Squire path (lines 299-321)

    A string is its sequence of code units, here all below 256.
    [REGEX_DIRECTION = /\[(dir=(rtl|ltr))]/g] is one shared object: being
    global, it keeps in [lastIndex] where its last [exec] ended. *)

(** The regex matched at the very start of [s]: its first capture group. *)
Definition direction_at (s : string) : option string :=
  if String.prefix "[dir=rtl]" s then Some "dir=rtl"
  else if String.prefix "[dir=ltr]" s then Some "dir=ltr"
  else None.

(** The first match in [s], whose first code unit has index [index] in the
    whole string: where it starts and its first capture group. *)
Fixpoint search (s : string) (index : nat) : option (nat * string) :=
  match direction_at s with
  | Some group => Some (index, group)
  | None =>
      match s with
      | EmptyString => None
      | String _ rest => search rest (S index)
      end
  end.

Fixpoint drop (n : nat) (s : string) : string :=
  match n, s with
  | O, _ => s
  | S k, String _ rest => drop k rest
  | S _, EmptyString => EmptyString
  end.

(** [REGEX_DIRECTION.exec(str)] with the regex's [lastIndex]: the first
    capture group of the match, if any, and the new [lastIndex] (a match is
    nine code units long). *)
Definition exec (str : string) (lastIndex : nat) : option string * nat :=
  if (String.length str <? lastIndex)%nat then (None, O)
  else match search (drop lastIndex str) lastIndex with
       | Some (index, group) => (Some group, (index + 9)%nat)
       | None => (None, O)
       end.

(** [s.replace(c, d)] for one-character strings [c] and [d]: the first
    occurrence only. *)
Fixpoint replace_first (c d : ascii) (s : string) : string :=
  match s with
  | EmptyString => EmptyString
  | String x rest =>
      if Ascii.eqb x c then String d rest else String x (replace_first c d rest)
  end.

(** [getDirectionClass(str)]; a match array always has its three entries. *)
Definition getDirectionClass (str : string) (lastIndex : nat) : string * nat :=
  match exec str lastIndex with
  | (Some group, lastIndex') => (replace_first "=" "-" group, lastIndex')
  | (None, lastIndex') => ("dir-ltr", lastIndex')
  end.

(** [str.replace(REGEX_DIRECTION, '')] scanning [s], the next [skip] code
    units belonging to a match already found. *)
Fixpoint strip (skip : nat) (s : string) : string :=
  match s with
  | EmptyString => EmptyString
  | String c rest =>
      match skip with
      | S k => strip k rest
      | O =>
          match direction_at s with
          | Some _ => strip 8 rest
          | None => String c (strip 0 rest)
          end
      end
  end.

(** [stripDirectionAttribute(str)]: a global replace starts at index 0
    whatever [lastIndex] was, and leaves it at 0. *)
Definition stripDirectionAttribute (str : string) (lastIndex : nat) : string * nat :=
  (strip 0 str, O).

(** ** squireToolbar: the toolbar element and the editor state (lines 366-392) *)

(** The element as the directive uses it: its class list, an ordered set of
    tokens, and its [data-editor-text] attribute. *)
Record Element := {
  classList : list string;
  data_editor_text : option string
}.

Definition contains (token : string) (tokens : list string) : bool :=
  existsb (String.eqb token) tokens.

(** [classList.add] and [classList.remove]. *)
Definition classList_add (token : string) (tokens : list string) : list string :=
  if contains token tokens then tokens else tokens ++ [token].

Definition classList_remove (token : string) (tokens : list string) : list string :=
  filter (fun t => negb (String.eqb token t)) tokens.

Definition SUB_ROW : string := "squireToolbar-show-subrow".

(** [CLASSNAME[key]]: [undefined] ([None]) for a key the object lacks. *)
Definition CLASSNAME (key : string) : option string :=
  if String.eqb key "CONTAINER" then Some "squireToolbar-container squire-toolbar"
  else if String.eqb key "SUB_ROW" then Some SUB_ROW
  else if String.eqb key "insertImage" then Some "open-image"
  else if String.eqb key "makeLink" then Some "open-link"
  else None.

(** The part of the editor state the toolbar listens to; either key may be
    [undefined]. *)
Record EditorState := {
  popover : option string;
  editorMode : option string
}.

(** [String(value)] as [setAttribute] applies it. *)
Definition to_attribute (value : option string) : string :=
  match value with
  | Some s => s
  | None => "undefined"
  end.

Definition option_string_eqb (a b : option string) : bool :=
  match a, b with
  | Some x, Some y => String.eqb x y
  | None, None => true
  | _, _ => false
  end.

(** [popover === 'makeLink' || popover === 'insertImage']. *)
Definition is_popover (p : option string) : bool :=
  match p with
  | Some name => String.eqb name "makeLink" || String.eqb name "insertImage"
  | None => false
  end.

(** [CLASSNAME[popover]] under that test. *)
Definition popover_class (p : option string) : option string :=
  if is_popover p then
    match p with
    | Some name => CLASSNAME name
    | None => None
    end
  else None.

(** [hideRow()]. *)
Definition hideRow (el : Element) : Element :=
  {| classList := classList_remove SUB_ROW (classList el);
     data_editor_text := data_editor_text el |}.

(** [onStateChange(oldState, newState)] (lines 380-392). *)
Definition onStateChange (oldState newState : EditorState) (el : Element) : Element :=
  let el1 :=
    if option_string_eqb (editorMode oldState) (editorMode newState) then el
    else {| classList := classList el;
            data_editor_text := Some (to_attribute (editorMode newState)) |} in
  let el2 :=
    match popover_class (popover oldState) with
    | Some class => {| classList := classList_remove class (classList el1);
                       data_editor_text := data_editor_text el1 |}
    | None => el1
    end in
  match popover_class (popover newState) with
  | Some class =>
      let el3 := hideRow el2 in
      {| classList := classList_add class (classList el3);
         data_editor_text := data_editor_text el3 |}
  | None => el2
  end.

(** The element shows the popover of the state: of the two popover classes
    it has the one of the open popover and no other. *)
Definition shows (popover_ : option string) (el : Element) : Prop :=
  forall class, In class ["open-link"; "open-image"] ->
                (In class (classList el) <-> popover_class popover_ = Some class).

(** ** squireToolbar: the class name computed from the path (lines 323-361) *)

Definition code (c : ascii) : nat := nat_of_ascii c.

(** The case folding under which the [i] flag compares a code unit with the
    ASCII letters of a pattern. *)
Definition fold_case (c : ascii) : ascii :=
  if ((65 <=? code c) && (code c <=? 90))%nat then ascii_of_nat (code c + 32) else c.

Fixpoint fold_string (s : string) : string :=
  match s with
  | EmptyString => EmptyString
  | String c rest => String (fold_case c) (fold_string rest)
  end.

(** [toLowerCase()] on code units below 256. *)
Definition lower_case (c : ascii) : ascii :=
  if ((65 <=? code c) && (code c <=? 90))%nat then ascii_of_nat (code c + 32)
  else if ((192 <=? code c) && (code c <=? 222) && negb (code c =? 215))%nat
       then ascii_of_nat (code c + 32)
       else c.

Fixpoint toLowerCase (s : string) : string :=
  match s with
  | EmptyString => EmptyString
  | String c rest => String (lower_case c) (toLowerCase rest)
  end.

(** White space and line terminators, as [trim()] removes them. *)
Definition is_space (c : ascii) : bool :=
  existsb (Nat.eqb (code c)) [9; 10; 11; 12; 13; 32; 160]%nat.

Fixpoint trim_left (s : string) : string :=
  match s with
  | EmptyString => EmptyString
  | String c rest => if is_space c then trim_left rest else s
  end.

Fixpoint trim_right (s : string) : string :=
  match s with
  | EmptyString => EmptyString
  | String c rest =>
      match trim_right rest with
      | EmptyString => if is_space c then EmptyString else String c EmptyString
      | kept => String c kept
      end
  end.

Definition trim (s : string) : string := trim_right (trim_left s).

(** [s.split(sep)] for a one-character separator. *)
Fixpoint split (sep : ascii) (s : string) : list string :=
  match s with
  | EmptyString => [EmptyString]
  | String c rest =>
      if Ascii.eqb c sep then EmptyString :: split sep rest
      else match split sep rest with
           | piece :: pieces => String c piece :: pieces
           | [] => [String c EmptyString]
           end
  end.

(** [f] holds of [s] or of one of its suffixes: a pattern found somewhere. *)
Fixpoint any_suffix (f : string -> bool) (s : string) : bool :=
  f s || match s with
         | EmptyString => false
         | String _ rest => any_suffix f rest
         end.

(** [.align-(center|left|right)$] at the start of [s]: any code unit but a
    line terminator, then one of the three words up to the end. *)
Definition align_suffix (s : string) : bool :=
  match s with
  | EmptyString => false
  | String c word =>
      negb ((code c =? 10) || (code c =? 13))%nat
      && existsb (String.eqb (fold_string word))
                 ["align-center"; "align-left"; "align-right"]
  end.

(** [/^i$|^u$|^b$|^ul$|^ol$|^li$|.align-(center|left|right)$/i.test(i)]. *)
Definition selects (i : string) : bool :=
  existsb (String.eqb (fold_string i)) ["i"; "u"; "b"; "ul"; "ol"; "li"]
  || any_suffix align_suffix i.

(** [/div|html|body|span/i.test(i)]. *)
Definition rejects (i : string) : bool :=
  any_suffix (fun t => existsb (fun word => String.prefix word (fold_string t))
                               ["div"; "html"; "body"; "span"]) i.

Definition truthy (s : string) : bool := negb (String.eqb s "").

Fixpoint join (sep : string) (parts : list string) : string :=
  match parts with
  | [] => EmptyString
  | [part] => part
  | part :: rest => String.append part (String.append sep (join sep rest))
  end.

(** The tokens of a [class] attribute: split on ASCII white space. *)
Definition is_ascii_whitespace (c : ascii) : bool :=
  existsb (Nat.eqb (code c)) [9; 10; 12; 13; 32]%nat.

Fixpoint tokens_from (current : string) (s : string) : list string :=
  match s with
  | EmptyString => if truthy current then [current] else []
  | String c rest =>
      if is_ascii_whitespace c then
        (if truthy current then [current] else []) ++ tokens_from EmptyString rest
      else tokens_from (String.append current (String c EmptyString)) rest
  end.

Definition tokens (s : string) : list string := tokens_from EmptyString s.

(** An ordered set keeps the first occurrence of each token. *)
Fixpoint ordered_set (l : list string) : list string :=
  match l with
  | [] => []
  | t :: rest => t :: filter (fun u => negb (String.eqb t u)) (ordered_set rest)
  end.

(** [node.className = value], seen through [node.classList]. *)
Definition set_className (value : string) (el : Element) : Element :=
  {| classList := ordered_set (tokens value);
     data_editor_text := data_editor_text el |}.

(** [getDefaultClass(node, klass)]: [CLASSNAME[klass]] if the node has that
    class, the empty string otherwise.  For a key [CLASSNAME] lacks, the
    class looked for is the string 'undefined' and the answer [undefined]
    ([None]) or the empty string. *)
Definition getDefaultClass (node : Element) (klass : string) : option string :=
  if contains (to_attribute (CLASSNAME klass)) (classList node)
  then CLASSNAME klass
  else Some EmptyString.

(** The entries [filter(Boolean)] keeps. *)
Definition truthy_entries (entries : list (option string)) : list string :=
  flat_map (fun entry => match entry with
                         | Some s => if truthy s then [s] else []
                         | None => []
                         end) entries.

Section ClassName.

(** [CONSTANTS.DEFAULT_SQUIRE_VALUE.HEADER_CLASS]. *)
Variable HEADER_CLASS : string.

(** The [flow(...)] of lines 345-357 applied to the stripped path [p]. *)
Definition classNames (p : string) : string :=
  let selected_ := filter (fun i => truthy i && selects i) (split ">" p) in
  let pieces := fold_left (fun acc path => acc ++ split "." path) selected_ [] in
  let kept := filter (fun i => truthy i && negb (rejects i)) pieces in
  let text := fold_left (fun acc key =>
                           if String.eqb HEADER_CLASS key
                           then String.append acc " size"
                           else String.append acc (String.append " " (trim key)))
                        kept EmptyString in
  trim (toLowerCase text).

(** The body of the debounced callback of [onPathChangeCb] for an editor
    path [path], on the node and the shared regex. *)
Definition onPathChange (path : string) (node : Element) (lastIndex : nat)
  : Element * nat :=
  let '(p, lastIndex1) := stripDirectionAttribute path lastIndex in
  if String.eqb p "(selection)" then (node, lastIndex1)
  else
    let subRowClass := getDefaultClass node "SUB_ROW" in
    let popoverImage := getDefaultClass node "POPOVER_IMAGE" in
    let popoverLink := getDefaultClass node "POPOVER_LINK" in
    let '(directionClass, lastIndex2) := getDirectionClass path lastIndex1 in
    let value :=
      join " " (truthy_entries [CLASSNAME "CONTAINER"; Some (classNames p);
                                subRowClass; popoverImage; popoverLink;
                                Some directionClass]) in
    (set_className value node, lastIndex2).

End ClassName.

(** The direction class of the first attribute of a path. *)
Definition first_direction (path : string) : string :=
  match search path 0 with
  | Some (_, group) => replace_first "=" "-" group
  | None => "dir-ltr"
  end.

(** What the [catch] branch of [updateAndRemove] (lines 98-104) settles the
    action with, for the error caught. *)
Definition caught (group : MergeGroup) (error : Thrown) : Settled GroupOutcome :=
  match message error with
  | inl text =>
      Fulfilled {| total := group_total group;
                   updated := if instanceof_ContactUpdateError error then None
                              else Some (update group);
                   removed := None;
                   errors := Some [text] |}
  | inr raised => Rejected raised
  end.

(** A store that rejects every update without a reason. *)
Definition silent_store : Store :=
  {| Contact_update := fun _ => Rejected (NoReason JsUndefined);
     Contact_remove := remove_ok |}.

(** The elements of [l] at the positions where [keep] is [true]. *)
Fixpoint pick {A} (keep : list bool) (l : list A) : list A :=
  match keep, l with
  | true :: keep', x :: l' => x :: pick keep' l'
  | false :: keep', _ :: l' => pick keep' l'
  | _, _ => []
  end.

(** [result.updated] is truthy. *)
Definition has_updated (result : GroupOutcome) : bool :=
  match updated result with
  | Some _ => true
  | None => false
  end.

(** The result with which the settlement [ev] makes an action of [st]
    resolve, if it does. *)
Definition resolved_by (st : MergeState) (ev : nat * Response) : list GroupOutcome :=
  match nth_error (actions st) (fst ev) with
  | Some a =>
      match resume a (snd ev) with
      | Some (Return result) => [result]
      | _ => []
      end
  | None => []
  end.

(** The results with which the settlements of [sched], delivered one after
    the other from [st] on, make the actions resolve, in the order of those
    settlements. *)
Fixpoint resolutions (total_ : Z) (st : MergeState) (sched : list (nat * Response))
  : list GroupOutcome :=
  match sched with
  | [] => []
  | ev :: rest => resolved_by st ev ++ resolutions total_ (settle total_ st ev) rest
  end.

(** The order in which the groups of a run resolve, by their results. *)
Definition resolution_order (contacts : MergeRequest) (sched : list (nat * Response))
  : list GroupOutcome :=
  resolutions (merge_total contacts) (launch contacts) sched.

(** * Properties *)

(** ** The summarizer *)

Lemma summarize_step_total agg result :
  agg_total (summarize_step agg result) = agg_total agg + total result.
Proof.
  unfold summarize_step; simpl.
  destruct (Z.eqb_spec (total result) 0) as [E | _]; [rewrite E |]; lia.
Qed.

(** The fold written out: each field collects its own data, left to right. *)
Lemma fold_summarize results : forall agg,
  fold_left summarize_step results agg =
  {| agg_updated := agg_updated agg ++ flat_map (fun r => option_list (updated r)) results;
     agg_removed := agg_removed agg ++ flat_map (fun r => or_empty (removed r)) results;
     agg_errors := agg_errors agg ++ flat_map (fun r => or_empty (errors r)) results;
     agg_total := agg_total agg + sum_Z (map total results) |}.
Proof.
  induction results as [| r rest IH]; intros agg; simpl.
  - destruct agg; simpl. rewrite !app_nil_r. f_equal. lia.
  - rewrite IH, summarize_step_total. simpl.
    f_equal.
    + destruct (updated r); simpl; now rewrite <- ?app_assoc.
    + destruct (removed r); simpl; now rewrite <- ?app_assoc, ?app_nil_r.
    + destruct (errors r); simpl; now rewrite <- ?app_assoc, ?app_nil_r.
    + lia.
Qed.

Lemma summarize_fields results :
  summarizeMergeResults results =
  {| agg_updated := flat_map (fun r => option_list (updated r)) results;
     agg_removed := flat_map (fun r => or_empty (removed r)) results;
     agg_errors := flat_map (fun r => or_empty (errors r)) results;
     agg_total := sum_Z (map total results) |}.
Proof.
  unfold summarizeMergeResults. now rewrite fold_summarize.
Qed.

Lemma sum_Z_app l1 l2 : sum_Z (l1 ++ l2) = sum_Z l1 + sum_Z l2.
Proof.
  induction l1 as [| x l1 IH]; simpl; [reflexivity | rewrite IH; lia].
Qed.

Lemma sum_Z_perm l1 l2 : Permutation l1 l2 -> sum_Z l1 = sum_Z l2.
Proof.
  induction 1; simpl; lia.
Qed.

(** C3, as the spec words it, fails: swapping two outcomes swaps the updated
    records (and the removed identifiers and the messages) in the summary. *)
Lemma C3_order_matters :
  Permutation [outcome_A; outcome_B] [outcome_B; outcome_A] /\
  summarizeMergeResults [outcome_B; outcome_A]
    <> summarizeMergeResults [outcome_A; outcome_B].
Proof.
  split; [apply perm_swap | discriminate].
Qed.

(** C3 (amended): summarizing a permutation of the outcomes gives the same
    total, and updated, removed and errors sequences that hold the same
    elements as the original ones, each as many times, possibly in another
    order. *)
Theorem C3_summarize_permutation (results results' : list GroupOutcome) :
  Permutation results results' ->
  agg_total (summarizeMergeResults results') = agg_total (summarizeMergeResults results) /\
  Permutation (agg_updated (summarizeMergeResults results))
              (agg_updated (summarizeMergeResults results')) /\
  Permutation (agg_removed (summarizeMergeResults results))
              (agg_removed (summarizeMergeResults results')) /\
  Permutation (agg_errors (summarizeMergeResults results))
              (agg_errors (summarizeMergeResults results')).
Proof.
  intros HP. rewrite !summarize_fields; simpl.
  repeat split.
  - symmetry. apply sum_Z_perm. now apply Permutation_map.
  - now apply Permutation_flat_map.
  - now apply Permutation_flat_map.
  - now apply Permutation_flat_map.
Qed.

Lemma C3_summarize_permutation_witness :
  Permutation [outcome_A; outcome_B] [outcome_B; outcome_A] /\
  agg_total (summarizeMergeResults [outcome_B; outcome_A]) = 5 /\
  Permutation (agg_removed (summarizeMergeResults [outcome_A; outcome_B]))
              ["D3"; "D1"; "D2"].
Proof.
  pose proof (C3_summarize_permutation [outcome_A; outcome_B] [outcome_B; outcome_A]
                (perm_swap _ _ _)) as (Ht & _ & Hr & _).
  split; [apply perm_swap |].
  split; [exact Ht | exact Hr].
Defined.

(** ** One group: updateAndRemove *)

(** The three ways a run of [updateAndRemove] can go, by what the store
    answers. *)
Lemma updateAndRemove_update_rejected group store error :
  Contact_update store (update group) = Rejected error ->
  run_async store (updateAndRemove group) =
  ([StoreUpdate (update group)], caught group error).
Proof.
  intros H. unfold updateAndRemove, caught; simpl. rewrite H; simpl.
  now destruct (message error).
Qed.

Lemma updateAndRemove_remove_rejected group store response error :
  Contact_update store (update group) = Fulfilled response ->
  Contact_remove store (remove group) = Rejected error ->
  run_async store (updateAndRemove group) =
  ([StoreUpdate (update group); StoreRemove (remove group)], caught group error).
Proof.
  intros Hu Hr. unfold updateAndRemove, caught; simpl. rewrite Hu; simpl.
  rewrite Hr; simpl. now destruct (message error).
Qed.

Lemma updateAndRemove_removed group store response answer :
  Contact_update store (update group) = Fulfilled response ->
  Contact_remove store (remove group) = Fulfilled answer ->
  run_async store (updateAndRemove group) =
  ([StoreUpdate (update group); StoreRemove (remove group)],
   Fulfilled {| total := group_total group;
                updated := Some (update group);
                removed := Some (or_empty (resp_removed answer));
                errors := Some (map Error (or_empty (resp_errors answer))) |}).
Proof.
  intros Hu Hr. unfold updateAndRemove; simpl. rewrite Hu; simpl. now rewrite Hr.
Qed.

(** A caught error gives an outcome unless it is no reason at all. *)
Lemma caught_reasoned group error :
  reasoned (@Rejected unit error) ->
  exists text,
    message error = inl text /\
    caught group error
    = Fulfilled {| total := group_total group;
                   updated := if instanceof_ContactUpdateError error then None
                              else Some (update group);
                   removed := None;
                   errors := Some [text] |}.
Proof.
  unfold caught. destruct error as [msg | msg | value]; simpl; intros H.
  - now exists (Some msg).
  - now exists msg.
  - contradiction.
Qed.

Lemma caught_total group error outcome :
  caught group error = Fulfilled outcome -> total outcome = group_total group.
Proof.
  unfold caught. destruct (message error); [| discriminate].
  intros E. now injection E as <-.
Qed.

(** Against a store whose rejections carry a reason, [updateAndRemove]
    resolves, and a rejection of either call is captured as the outcome's
    single error message, read from the reason. *)
Lemma updateAndRemove_resolves_when_reasoned group store :
  reasoned (Contact_update store (update group)) ->
  reasoned (Contact_remove store (remove group)) ->
  exists outcome,
    snd (run_async store (updateAndRemove group)) = Fulfilled outcome /\
    (forall error,
        Contact_update store (update group) = Rejected error ->
        message error = inl (hd None (or_empty (errors outcome))) /\
        List.length (or_empty (errors outcome)) = 1%nat) /\
    (forall response error,
        Contact_update store (update group) = Fulfilled response ->
        Contact_remove store (remove group) = Rejected error ->
        message error = inl (hd None (or_empty (errors outcome))) /\
        List.length (or_empty (errors outcome)) = 1%nat).
Proof.
  intros Hu Hr.
  destruct (Contact_update store (update group)) as [response | error] eqn:Eu.
  - destruct (Contact_remove store (remove group)) as [answer | error] eqn:Er.
    + rewrite (updateAndRemove_removed _ _ _ _ Eu Er). eexists; split; [reflexivity |].
      split; intros; discriminate.
    + rewrite (updateAndRemove_remove_rejected _ _ _ _ Eu Er).
      destruct (caught_reasoned group error) as (text & Em & ->);
        [destruct error; simpl in *; tauto |].
      eexists; split; [reflexivity |].
      split; [intros; discriminate |].
      intros r e _ E. injection E as <-. simpl. now split.
  - rewrite (updateAndRemove_update_rejected _ _ _ Eu).
    destruct (caught_reasoned group error) as (text & Em & ->);
      [destruct error; simpl in *; tauto |].
    eexists; split; [reflexivity |].
    split; [| intros; discriminate].
    intros e E. injection E as <-. simpl. now split.
Qed.

(** [updateAndRemove] rejects exactly when the call that fails is rejected
    without a reason: reading [error.message] in the [catch] then raises. *)
Lemma updateAndRemove_rejects_iff group store raised :
  snd (run_async store (updateAndRemove group)) = Rejected raised <->
  exists value,
    raised = TypeError_reading "message" value /\
    (Contact_update store (update group) = Rejected (NoReason value) \/
     exists response,
       Contact_update store (update group) = Fulfilled response /\
       Contact_remove store (remove group) = Rejected (NoReason value)).
Proof.
  destruct (Contact_update store (update group)) as [response | error] eqn:Eu.
  - destruct (Contact_remove store (remove group)) as [answer | error] eqn:Er.
    + rewrite (updateAndRemove_removed _ _ _ _ Eu Er). simpl. split; [discriminate |].
      intros (v & _ & [E | (r & _ & E)]); discriminate.
    + rewrite (updateAndRemove_remove_rejected _ _ _ _ Eu Er). unfold caught; simpl.
      destruct error as [msg | msg | value]; simpl.
      * split; [discriminate | intros (v & _ & [E | (r & _ & E)]); discriminate].
      * split; [discriminate | intros (v & _ & [E | (r & _ & E)]); discriminate].
      * split.
        -- intros E. injection E as <-. exists value. split; [reflexivity |].
           right. now exists response.
        -- intros (v & -> & [E | (r & _ & E)]); [discriminate |].
           now injection E as <-.
  - rewrite (updateAndRemove_update_rejected _ _ _ Eu). unfold caught; simpl.
    destruct error as [msg | msg | value]; simpl.
    + split; [discriminate | intros (v & _ & [E | (r & E & _)]); discriminate].
    + split; [discriminate | intros (v & _ & [E | (r & E & _)]); discriminate].
    + split.
      * intros E. injection E as <-. exists value. split; [reflexivity | now left].
      * intros (v & -> & [E | (r & E & _)]); [| discriminate].
        now injection E as <-.
Qed.

(** C6, at a group whose update the store rejects without a reason
    ([Promise.reject()]): the [catch] branch reads [error.message] of
    [undefined], which raises a [TypeError], and [updateAndRemove] rejects
    with it instead of resolving with an outcome; [Contact.remove] is not
    called. *)
Theorem C6_rejects_when_rejected_without_reason :
  Contact_update silent_store (update group_A) = Rejected (NoReason JsUndefined) /\
  run_async silent_store (updateAndRemove group_A)
  = ([StoreUpdate contact_C1], Rejected (TypeError_reading "message" JsUndefined)).
Proof.
  split; reflexivity.
Qed.

(** C7: when the update is rejected with a [ContactUpdateError], the outcome
    has no updated record, reports no removed identifier (the [removed] key
    is left out, which the summarizer reads as nothing removed), carries the
    error's message as its only error message, and the only store call made
    is the update: [Contact.remove] is not invoked. *)
Theorem C7_conflict_outcome (group : MergeGroup) (store : Store) (msg : string) :
  Contact_update store (update group) = Rejected (ContactUpdateError msg) ->
  exists outcome,
    run_async store (updateAndRemove group)
      = ([StoreUpdate (update group)], Fulfilled outcome) /\
    updated outcome = None /\
    removed outcome = None /\
    agg_removed (summarizeMergeResults [outcome]) = [] /\
    agg_updated (summarizeMergeResults [outcome]) = [] /\
    errors outcome = Some [Some msg] /\
    total outcome = group_total group.
Proof.
  intros H. rewrite (updateAndRemove_update_rejected _ _ _ H).
  eexists; split; [reflexivity |]. simpl. repeat split.
Qed.

Lemma C7_conflict_outcome_witness :
  Contact_update conflicting_store (update group_A)
    = Rejected (ContactUpdateError "conflict") /\
  exists outcome,
    run_async conflicting_store (updateAndRemove group_A)
      = ([StoreUpdate (update group_A)], Fulfilled outcome) /\
    updated outcome = None /\
    removed outcome = None /\
    agg_removed (summarizeMergeResults [outcome]) = [] /\
    agg_updated (summarizeMergeResults [outcome]) = [] /\
    errors outcome = Some [Some "conflict"] /\
    total outcome = group_total group_A.
Proof.
  split; [reflexivity |].
  apply (C7_conflict_outcome group_A conflicting_store "conflict"). reflexivity.
Defined.

(** C8: when the update is fulfilled and the removal answers with some
    identifiers removed and some per-identifier errors, the outcome keeps the
    canonical record as updated, reports exactly the identifiers the store
    removed, and lists the [Error] text of every per-identifier error, in the
    store's order. *)
Theorem C8_partial_removal_outcome (group : MergeGroup) (store : Store)
    (response : UpdateResponse) (removed_IDs : list ContactID)
    (failures : list RemoveError) :
  Contact_update store (update group) = Fulfilled response ->
  Contact_remove store (remove group)
    = Fulfilled {| resp_removed := Some removed_IDs; resp_errors := Some failures |} ->
  run_async store (updateAndRemove group) =
  ([StoreUpdate (update group); StoreRemove (remove group)],
   Fulfilled {| total := group_total group;
                updated := Some (update group);
                removed := Some removed_IDs;
                errors := Some (map Error failures) |}).
Proof.
  intros Hu Hr. now rewrite (updateAndRemove_removed _ _ _ _ Hu Hr).
Qed.

Lemma C8_partial_removal_outcome_witness :
  Contact_update partial_store (update group_A) = update_ok /\
  Contact_remove partial_store (remove group_A)
    = Fulfilled {| resp_removed := Some ["D1"];
                   resp_errors :=
                     Some [{| err_ID := "D2"; Error := Some "not found" |}] |} /\
  run_async partial_store (updateAndRemove group_A) =
  ([StoreUpdate contact_C1; StoreRemove ["D1"; "D2"]],
   Fulfilled {| total := 3;
                updated := Some contact_C1;
                removed := Some ["D1"];
                errors := Some [Some "not found"] |}).
Proof.
  split; [reflexivity |]. split; [reflexivity |].
  apply (C8_partial_removal_outcome group_A partial_store
           {| upd_Contact := contact_C1; upd_cards := [] |}
           ["D1"] [{| err_ID := "D2"; Error := Some "not found" |}]);
    reflexivity.
Defined.

Lemma updateAndRemove_outcome_total group store outcome :
  snd (run_async store (updateAndRemove group)) = Fulfilled outcome ->
  total outcome = group_total group.
Proof.
  destruct (Contact_update store (update group)) as [response | error] eqn:Hu.
  - destruct (Contact_remove store (remove group)) as [answer | error] eqn:Hr.
    + rewrite (updateAndRemove_removed _ _ _ _ Hu Hr). simpl.
      intros E. now injection E as <-.
    + rewrite (updateAndRemove_remove_rejected _ _ _ _ Hu Hr). apply caught_total.
  - rewrite (updateAndRemove_update_rejected _ _ _ Hu). apply caught_total.
Qed.

(** C9: whatever the store answers (fulfilment, a conflict, any other
    failure with a reason, on the update or on the removal), an outcome is
    produced, and every outcome [updateAndRemove] produces has as total one
    plus the number of identifiers to remove; for a group with nothing to
    remove that total is 1. *)
Theorem C9_group_total (group : MergeGroup) (store : Store) :
  (reasoned (Contact_update store (update group)) ->
   reasoned (Contact_remove store (remove group)) ->
   exists outcome,
     snd (run_async store (updateAndRemove group)) = Fulfilled outcome) /\
  (forall outcome,
      snd (run_async store (updateAndRemove group)) = Fulfilled outcome ->
      total outcome = 1 + Z.of_nat (List.length (remove group))) /\
  (forall outcome,
      snd (run_async store (updateAndRemove (single (update group))))
        = Fulfilled outcome ->
      total outcome = 1).
Proof.
  split; [| split].
  - intros Hu Hr.
    destruct (updateAndRemove_resolves_when_reasoned group store Hu Hr)
      as (outcome & E & _).
    now exists outcome.
  - intros outcome E. now apply updateAndRemove_outcome_total in E.
  - intros outcome E. now apply updateAndRemove_outcome_total in E.
Qed.

Lemma C9_group_total_witness :
  (exists outcome,
      snd (run_async partial_store (updateAndRemove group_A)) = Fulfilled outcome) /\
  total {| total := 3; updated := Some contact_C1; removed := Some ["D1"];
           errors := Some [Some "not found"] |}
  = 1 + Z.of_nat (List.length (remove group_A)).
Proof.
  destruct (C9_group_total group_A partial_store) as (Hex & Htot & _).
  split.
  - apply Hex; exact I.
  - apply Htot. reflexivity.
Defined.

(** ** Actions under arbitrary settlements *)

Lemma updateAndRemove_results group :
  results_satisfy (fun outcome => total outcome = group_total group)
                  (updateAndRemove group).
Proof.
  unfold updateAndRemove; simpl.
  intros [response | error]; simpl; [| now destruct (message error)].
  intros [answer | error]; simpl; [reflexivity | now destruct (message error)].
Qed.

Lemma results_satisfy_resume {A} (P : A -> Prop) a r a' :
  results_satisfy P a -> resume a r = Some a' -> results_satisfy P a'.
Proof.
  destruct a, r; simpl; intros H E; try discriminate;
    injection E as <-; apply H.
Qed.

Lemma In_replace_nth {A} (l : list A) : forall i a x,
  nth_error l i = Some a -> In x (replace_nth i x l).
Proof.
  induction l as [| y l IH]; intros [| i] a x E; simpl in *; try discriminate.
  - now left.
  - right. now apply IH with a.
Qed.

Lemma In_replace_nth_other {A} (l : list A) : forall i a x y,
  nth_error l i = Some a -> a <> y -> In y l -> In y (replace_nth i x l).
Proof.
  induction l as [| z l IH]; intros [| i] a x y E Hne Hin; simpl in *;
    try discriminate.
  - injection E as ->. destruct Hin as [-> | Hin]; [contradiction | now right].
  - destruct Hin as [-> | Hin]; [now left | right; now apply IH with a].
Qed.

Lemma Forall_replace_nth {A} (P : A -> Prop) (l : list A) : forall i x,
  Forall P l -> P x -> Forall P (replace_nth i x l).
Proof.
  induction l as [| y l IH]; intros [| i] x HF Hx; simpl; try exact HF;
    inversion HF; subst; constructor; auto.
Qed.

(** Only a pending call can be resumed. *)
Lemma resume_pending {A} (a : Async A) r a' :
  resume a r = Some a' ->
  match a with Return _ | Throw _ => False | _ => True end.
Proof.
  destruct a, r; simpl; intros E; try discriminate; exact I.
Qed.

Lemma Forall2_nth_error {A B} (R : A -> B -> Prop) l1 l2 :
  Forall2 R l1 l2 ->
  forall i b, nth_error l2 i = Some b ->
  exists a, nth_error l1 i = Some a /\ R a b.
Proof.
  induction 1 as [| x y l1 l2 Hxy _ IH]; intros [| i] b E; simpl in *;
    try discriminate.
  - injection E as <-. now exists x.
  - now apply IH.
Qed.

Lemma Forall2_replace_nth {A B} (R : A -> B -> Prop) l1 l2 :
  Forall2 R l1 l2 ->
  forall i a b', nth_error l1 i = Some a -> R a b' ->
  Forall2 R l1 (replace_nth i b' l2).
Proof.
  induction 1 as [| x y l1 l2 Hxy HF IH]; intros [| i] a b' E HR; simpl in *;
    try discriminate.
  - injection E as <-. now constructor.
  - constructor; [assumption | now apply IH with a].
Qed.

Lemma nth_error_replace_nth {A} (l : list A) : forall i a x,
  nth_error l i = Some a -> nth_error (replace_nth i x l) i = Some x.
Proof.
  induction l as [| y l IH]; intros [| i] a x E; simpl in *; try discriminate.
  - reflexivity.
  - now apply IH with a.
Qed.

Lemma replace_nth_length {A} (l : list A) : forall i x,
  List.length (replace_nth i x l) = List.length l.
Proof.
  induction l as [| y l IH]; intros [| i] x; simpl; auto.
Qed.

(** ** Invariants of a merge run *)

Lemma launch_invariant contacts : run_invariant contacts (launch contacts).
Proof.
  split; simpl.
  - induction contacts as [| entry rest IH]; simpl; constructor.
    + apply updateAndRemove_results.
    + exact IH.
  - left. split; [reflexivity |].
    induction contacts as [| entry rest IH]; simpl; constructor; [| exact IH].
    unfold updateAndRemove; simpl. tauto.
Qed.

Lemma settle_invariant contacts total_ st ev :
  run_invariant contacts st -> run_invariant contacts (settle total_ st ev).
Proof.
  intros [HF HP]. unfold settle.
  destruct (nth_error (actions st) (fst ev)) as [a |] eqn:Ha; [| now split].
  destruct (resume a (snd ev)) as [a' |] eqn:Hr; [| now split].
  destruct (Forall2_nth_error _ _ _ HF _ _ Ha) as (entry & He & Hal).
  pose proof (results_satisfy_resume _ _ _ _ Hal Hr) as Hal'.
  pose proof (resume_pending _ _ _ Hr) as Hpend.
  assert (HF' : Forall2 (fun (entry : string * MergeGroup) a =>
             results_satisfy (fun outcome => total outcome = group_total (snd entry)) a)
          contacts (replace_nth (fst ev) a' (actions st)))
    by (now apply Forall2_replace_nth with entry).
  assert (Hkeep : forall error, In (Throw error) (actions st) ->
                    In (Throw error) (replace_nth (fst ev) a' (actions st))).
  { intros error Hin. apply In_replace_nth_other with a; [exact Ha | | exact Hin].
    intros ->. exact Hpend. }
  destruct a' as [result | raised | contact k | IDs k]; simpl; (split; [exact HF' |]).
  - destruct HP as [[HP Hno] | (error & HP & Hin)].
    + left. split; [exact HP |]. apply Forall_replace_nth; [exact Hno | simpl; tauto].
    + right. exists error. split; [exact HP | now apply Hkeep].
  - destruct HP as [[HP Hno] | (error & HP & Hin)].
    + right. exists raised. rewrite HP. split; [reflexivity |].
      now apply In_replace_nth with a.
    + right. exists error. rewrite HP. split; [reflexivity | now apply Hkeep].
  - destruct HP as [[HP Hno] | (error & HP & Hin)].
    + left. split; [exact HP |]. apply Forall_replace_nth; [exact Hno | simpl; tauto].
    + right. exists error. split; [exact HP | now apply Hkeep].
  - destruct HP as [[HP Hno] | (error & HP & Hin)].
    + left. split; [exact HP |]. apply Forall_replace_nth; [exact Hno | simpl; tauto].
    + right. exists error. split; [exact HP | now apply Hkeep].
Qed.

Lemma settle_all_invariant contacts sched :
  run_invariant contacts (settle_all contacts sched).
Proof.
  unfold settle_all.
  generalize (launch_invariant contacts).
  generalize (launch contacts) as st.
  induction sched as [| ev rest IH]; intros st H; simpl; [exact H |].
  apply IH. now apply settle_invariant.
Qed.

(** [Promise.all] resolves with the results of the actions, in array order. *)
Lemma Promise_all_results acts : forall results,
  Promise_all acts = Some results -> acts = map Return results.
Proof.
  induction acts as [| a rest IH]; intros results E; simpl in *.
  - now injection E as <-.
  - destruct a; try discriminate.
    destruct (Promise_all rest) as [rs |]; [| discriminate].
    injection E as <-. simpl. f_equal. now apply IH.
Qed.

Lemma Promise_all_map_Return results :
  Promise_all (map Return results) = Some results.
Proof.
  induction results as [| r rest IH]; simpl; [reflexivity | now rewrite IH].
Qed.

(** Once all actions have resolved, the totals of their results are the
    groups' totals, in key order. *)
Lemma resolved_totals contacts st results :
  run_invariant contacts st ->
  Promise_all (actions st) = Some results ->
  map total results = map (fun entry : string * MergeGroup => group_total (snd entry))
                          contacts.
Proof.
  intros [HF _] E. apply Promise_all_results in E. rewrite E in HF. clear E.
  revert results HF.
  induction contacts as [| entry rest IH]; intros results HF;
    inversion HF as [| ? a ? acts Ha Hrest E1 E2]; subst.
  - now destruct results.
  - destruct results as [| r rs]; [discriminate |].
    simpl in *. injection E2 as -> ->. simpl in Ha.
    f_equal; [exact Ha | now apply IH].
Qed.

(** While every action has resolved, none has rejected the promise. *)
Lemma pending_when_all_resolved contacts st results :
  run_invariant contacts st ->
  Promise_all (actions st) = Some results ->
  promise st = Pending.
Proof.
  intros [_ [[HP _] | (error & _ & Hin)]] E; [exact HP |].
  apply Promise_all_results in E. rewrite E in Hin.
  apply in_map_iff in Hin. destruct Hin as (r & Hr & _). discriminate.
Qed.

(** ** merge: how the returned promise settles *)

Lemma finish_resolved sync_ st results :
  promise st = Pending ->
  Promise_all (actions st) = Some results ->
  finish sync_ st =
  {| actions := actions st;
     progress := progress st;
     promise := Resolved sync_;
     log := log st ++ [EmitContactsUpdated;
                       EmitContactsMerged (summarizeMergeResults results);
                       EventManagerCall] |}.
Proof.
  intros HP HA. unfold finish. now rewrite HP, HA.
Qed.

Lemma finish_actions sync_ st : actions (finish sync_ st) = actions st.
Proof.
  unfold finish. destruct (promise st); [| reflexivity].
  now destruct (Promise_all (actions st)).
Qed.

Lemma finish_progress sync_ st : progress (finish sync_ st) = progress st.
Proof.
  unfold finish. destruct (promise st); [| reflexivity].
  now destruct (Promise_all (actions st)).
Qed.

(** C1, as the spec words it, fails: with a final call that resolves with
    [undefined], the promise resolves with [undefined], not with the
    summary. *)
Lemma C1_resolves_with_sync_value_not_summary :
  Promise_all (actions (settle_all request_AB (schedule (env_of request_AB))))
    = Some [outcome_A;
            {| total := 2; updated := Some contact_C2; removed := Some ["D3"];
               errors := Some [] |}] /\
  sync (env_of request_AB) = Fulfilled VUndefined /\
  promise (merge request_AB (env_of request_AB)) = Resolved (Fulfilled VUndefined) /\
  promise (merge request_AB (env_of request_AB))
    <> Resolved (Fulfilled (VSummary (summarizeMergeResults
         [outcome_A;
          {| total := 2; updated := Some contact_C2; removed := Some ["D3"];
             errors := Some [] |}]))).
Proof.
  repeat split; try reflexivity. vm_compute. discriminate.
Qed.

(** C1 (amended): when every group action has resolved and the final
    [eventManager.call()] is fulfilled, the promise returned by [merge] is
    fulfilled with the value of that call; the summary folded from all
    outcomes, in key order, is the payload of the 'contactsMerged'
    notification, emitted after 'contactsUpdated' and just before the call. *)
Theorem C1_merge_settles_as_sync (contacts : MergeRequest) (env : Environment)
    (results : list GroupOutcome) (value : Value) :
  Promise_all (actions (settle_all contacts (schedule env))) = Some results ->
  sync env = Fulfilled value ->
  promise (merge contacts env) = Resolved (Fulfilled value) /\
  log (merge contacts env) =
    log (settle_all contacts (schedule env))
    ++ [EmitContactsUpdated;
        EmitContactsMerged (summarizeMergeResults results);
        EventManagerCall].
Proof.
  intros HA HS. unfold merge.
  pose proof (pending_when_all_resolved _ _ _
                (settle_all_invariant contacts (schedule env)) HA) as HP.
  rewrite (finish_resolved _ _ _ HP HA), HS. now split.
Qed.

Lemma C1_merge_settles_as_sync_witness :
  promise (merge request_AB (env_of request_AB)) = Resolved (Fulfilled VUndefined) /\
  log (merge request_AB (env_of request_AB)) =
    [LoaderModalActivate; StoreUpdate contact_C1; StoreUpdate contact_C2;
     NetworkTrack;
     StoreRemove ["D1"; "D2"];
     EmitProgressBar (Fin 60); EmitContactUpdated (VFunction "update");
     StoreRemove ["D3"];
     EmitProgressBar (Fin 100); EmitContactUpdated (VFunction "update");
     EmitContactsUpdated;
     EmitContactsMerged {| agg_updated := [contact_C1; contact_C2];
                           agg_removed := ["D1"; "D2"; "D3"];
                           agg_errors := [];
                           agg_total := 5 |};
     EventManagerCall].
Proof.
  apply (C1_merge_settles_as_sync request_AB (env_of request_AB)
           [outcome_A;
            {| total := 2; updated := Some contact_C2; removed := Some ["D3"];
               errors := Some [] |}]
           VUndefined); reflexivity.
Defined.

(** ** merge on a request without groups *)

Lemma settle_no_actions total_ st ev :
  actions st = [] -> settle total_ st ev = st.
Proof.
  intros H. unfold settle. rewrite H. now destruct (fst ev).
Qed.

Lemma settle_all_empty sched : settle_all [] sched = launch [].
Proof.
  unfold settle_all. generalize (eq_refl : actions (launch []) = []).
  generalize (launch []) as st.
  induction sched as [| ev rest IH]; intros st H; simpl; [reflexivity |].
  rewrite settle_no_actions by exact H. now apply IH.
Qed.

(** C10: [merge] of a request without groups, whatever the environment
    delivers, activates the modal, emits 'contactsUpdated' and then
    'contactsMerged' with the empty summary, calls [eventManager.call()], and
    its promise is fulfilled as that call is. *)
Theorem C10_merge_empty_request (sched : list (nat * Response)) (value : Value) :
  merge [] {| schedule := sched; sync := Fulfilled value |} =
  {| actions := [];
     progress := Fin 0;
     promise := Resolved (Fulfilled value);
     log := [LoaderModalActivate; NetworkTrack;
             EmitContactsUpdated;
             EmitContactsMerged {| agg_updated := []; agg_removed := [];
                                   agg_errors := []; agg_total := 0 |};
             EventManagerCall] |}.
Proof.
  unfold merge; simpl. now rewrite settle_all_empty.
Qed.

(** ** The progress counter *)

Lemma sum_Z_replace_nth {A} (f : A -> Z) (l : list A) : forall i a a',
  nth_error l i = Some a ->
  sum_Z (map f (replace_nth i a' l)) = sum_Z (map f l) - f a + f a'.
Proof.
  induction l as [| y l IH]; intros [| i] a a' E; simpl in *; try discriminate.
  - injection E as <-. lia.
  - rewrite (IH _ _ a' E). lia.
Qed.

Lemma merge_total_sum contacts :
  merge_total contacts =
  sum_Z (map (fun entry : string * MergeGroup => group_total (snd entry)) contacts).
Proof.
  unfold merge_total.
  assert (H : forall acc,
             fold_left (fun sum (entry : string * MergeGroup) =>
                          sum + Z.of_nat (List.length (remove (snd entry))) + 1)
                       contacts acc
             = acc + sum_Z (map (fun entry : string * MergeGroup =>
                                   group_total (snd entry)) contacts)).
  { induction contacts as [| entry rest IH]; intros acc; simpl; [lia |].
    rewrite IH. unfold group_total. lia. }
  now rewrite H.
Qed.

Lemma merge_total_positive contacts : contacts <> [] -> 0 < merge_total contacts.
Proof.
  intros Hne. rewrite merge_total_sum.
  assert (H : forall l : MergeRequest,
             0 <= sum_Z (map (fun entry : string * MergeGroup =>
                                group_total (snd entry)) l)).
  { induction l as [| e l IH]; simpl; [lia | unfold group_total at 1; lia]. }
  destruct contacts as [| entry rest]; [congruence |]. simpl.
  specialize (H rest). unfold group_total at 1. lia.
Qed.

(** While actions resolve, the counter is the sum of the contributions of
    those that have. *)
Lemma settle_progress total_ st ev :
  total_ <> 0 ->
  progress st = Fin (resolved_progress total_ (actions st)) ->
  progress (settle total_ st ev)
  = Fin (resolved_progress total_ (actions (settle total_ st ev))).
Proof.
  intros HT HP. unfold settle.
  destruct (nth_error (actions st) (fst ev)) as [a |] eqn:Ha; [| exact HP].
  destruct (resume a (snd ev)) as [a' |] eqn:Hr; [| exact HP].
  pose proof (resume_pending _ _ _ Hr) as Hpend.
  unfold resolved_progress in *.
  destruct a'; simpl;
    rewrite (sum_Z_replace_nth _ _ _ _ _ Ha); rewrite HP;
    destruct a; try contradiction; simpl;
    try (f_equal; lia).
  - unfold Math_floor_div. destruct (Z.eqb_spec total_ 0); [contradiction |].
    f_equal. lia.
  - unfold Math_floor_div. destruct (Z.eqb_spec total_ 0); [contradiction |].
    f_equal. lia.
Qed.

Lemma settle_all_progress contacts sched :
  contacts <> [] ->
  progress (settle_all contacts sched)
  = Fin (resolved_progress (merge_total contacts)
                           (actions (settle_all contacts sched))).
Proof.
  intros Hne. pose proof (merge_total_positive _ Hne) as HT.
  unfold settle_all.
  assert (H0 : progress (launch contacts)
               = Fin (resolved_progress (merge_total contacts)
                                        (actions (launch contacts)))).
  { simpl. unfold resolved_progress. f_equal.
    generalize (merge_total contacts) as T. clear.
    induction contacts as [| e l IH]; intros T; simpl;
      [reflexivity | apply IH]. }
  revert H0. generalize (launch contacts) as st.
  induction sched as [| ev rest IH]; intros st H; simpl; [exact H |].
  apply IH. apply settle_progress; [lia | exact H].
Qed.

(** Sums of floors against the exact share. *)
Lemma floors_split (gs : list Z) (T : Z) :
  T <> 0 ->
  100 * sum_Z gs
  = T * sum_Z (map (fun g => g * 100 / T) gs)
    + sum_Z (map (fun g => (g * 100) mod T) gs).
Proof.
  intros HT. induction gs as [| g gs IH]; [simpl; lia |].
  cbn [map sum_Z fold_right].
  fold (sum_Z gs) (sum_Z (map (fun g => g * 100 / T) gs))
       (sum_Z (map (fun g => (g * 100) mod T) gs)).
  pose proof (Z.div_mod (g * 100) T HT) as E.
  set (q := g * 100 / T) in *. set (r := (g * 100) mod T) in *.
  set (Q := sum_Z (map (fun g => g * 100 / T) gs)) in *.
  set (R := sum_Z (map (fun g => (g * 100) mod T) gs)) in *.
  lia.
Qed.

Lemma remainders_bounds (gs : list Z) (T : Z) :
  0 < T ->
  0 <= sum_Z (map (fun g => (g * 100) mod T) gs)
    <= Z.of_nat (List.length gs) * (T - 1).
Proof.
  intros HT. induction gs as [| g gs IH]; [simpl; lia |].
  cbn [map sum_Z fold_right List.length]. fold (sum_Z (map (fun g => (g * 100) mod T) gs)).
  pose proof (Z.mod_pos_bound (g * 100) T HT). lia.
Qed.

Lemma remainders_zero (gs : list Z) (T : Z) :
  0 < T ->
  sum_Z (map (fun g => (g * 100) mod T) gs) = 0
  <-> Forall (fun g => (g * 100) mod T = 0) gs.
Proof.
  intros HT. induction gs as [| g gs IH]; simpl.
  - split; [constructor | reflexivity].
  - pose proof (Z.mod_pos_bound (g * 100) T HT).
    pose proof (remainders_bounds gs T HT) as Hb.
    unfold sum_Z in *. split.
    + intros E. constructor; [lia |]. apply IH. lia.
    + intros HF. inversion HF as [| ? ? Hg Hgs]; subst.
      apply IH in Hgs. lia.
Qed.

Lemma contributions_as_floors contacts :
  contributions contacts =
  map (fun g => g * 100 / merge_total contacts)
      (map (fun entry : string * MergeGroup => group_total (snd entry)) contacts).
Proof.
  unfold contributions. now rewrite map_map.
Qed.

Lemma resolved_progress_all total_ results :
  resolved_progress total_ (map Return results)
  = sum_Z (map (fun g => g * 100 / total_) (map total results)).
Proof.
  unfold resolved_progress. now rewrite !map_map.
Qed.

(** The sum of the contributions of all the groups falls short of 100 by less
    than the number of groups, and by nothing exactly when every share is a
    whole percentage. *)
Lemma contributions_bounds contacts :
  contacts <> [] ->
  100 - Z.of_nat (List.length contacts) < sum_Z (contributions contacts) <= 100 /\
  (sum_Z (contributions contacts) = 100 <->
   Forall (fun entry : string * MergeGroup =>
             (group_total (snd entry) * 100) mod merge_total contacts = 0)
          contacts).
Proof.
  intros Hne. pose proof (merge_total_positive _ Hne) as HT.
  rewrite contributions_as_floors.
  set (gs := map (fun entry : string * MergeGroup => group_total (snd entry)) contacts).
  assert (Hsum : merge_total contacts = sum_Z gs) by apply merge_total_sum.
  assert (Hlen : List.length gs = List.length contacts) by apply length_map.
  assert (Hn : (0 < List.length contacts)%nat)
    by (destruct contacts; [congruence | simpl; lia]).
  set (T := merge_total contacts) in *.
  assert (HT' : T <> 0) by lia.
  pose proof (floors_split gs T HT') as Hsplit.
  pose proof (remainders_bounds gs T HT) as Hrem.
  pose proof (remainders_zero gs T HT) as Hzero.
  rewrite <- Hsum, Hlen in *.
  set (Q := sum_Z (map (fun g => g * 100 / T) gs)) in *.
  set (R := sum_Z (map (fun g => (g * 100) mod T) gs)) in *.
  assert (HR : T * (100 - Q) = R) by lia.
  split.
  - split; nia.
  - rewrite <- (Forall_map (fun entry : string * MergeGroup => group_total (snd entry))
                           (fun g => (g * 100) mod T = 0)).
    fold gs. rewrite <- Hzero. split; [intros ->; lia | nia].
Qed.

(** C2, as the spec words it, fails: three groups of one unit each contribute
    33 each, and the counter ends at 99. *)
Lemma C2_three_thirds_reach_99 :
  request_thirds <> [] /\
  merge_total request_thirds = 3 /\
  Promise_all (actions (merge request_thirds (env_of request_thirds)))
    = Some [ {| total := 1; updated := Some contact_C1; removed := Some [];
                errors := Some [] |};
             {| total := 1; updated := Some contact_C2; removed := Some [];
                errors := Some [] |};
             {| total := 1; updated := Some contact_C3; removed := Some [];
                errors := Some [] |} ] /\
  progress (merge request_thirds (env_of request_thirds)) = Fin 99 /\
  progress (merge request_thirds (env_of request_thirds)) <> Fin 100.
Proof.
  repeat split; try reflexivity; discriminate.
Qed.

(** C2 (amended): for a run with at least one group, once all the group
    actions have resolved the counter is the sum of the groups' contributions
    floor(groupTotal * 100 / total), whatever the order of the settlements;
    that sum is at most 100 and falls short of 100 by less than the number of
    groups, and it is 100 exactly when [total] divides every
    groupTotal * 100. *)
Theorem C2_progress_when_all_resolved (contacts : MergeRequest) (env : Environment)
    (results : list GroupOutcome) :
  contacts <> [] ->
  Promise_all (actions (merge contacts env)) = Some results ->
  progress (merge contacts env) = Fin (sum_Z (contributions contacts)) /\
  100 - Z.of_nat (List.length contacts) < sum_Z (contributions contacts) <= 100 /\
  (sum_Z (contributions contacts) = 100 <->
   Forall (fun entry : string * MergeGroup =>
             (group_total (snd entry) * 100) mod merge_total contacts = 0)
          contacts).
Proof.
  intros Hne HA. split; [| now apply contributions_bounds].
  unfold merge in *. rewrite finish_progress. rewrite finish_actions in HA.
  rewrite (settle_all_progress _ _ Hne).
  pose proof (resolved_totals _ _ _ (settle_all_invariant contacts (schedule env)) HA)
    as Htot.
  apply Promise_all_results in HA. rewrite HA.
  now rewrite resolved_progress_all, Htot, contributions_as_floors.
Qed.

Lemma C2_progress_when_all_resolved_witness :
  progress (merge request_AB (env_of request_AB)) = Fin 100 /\
  progress (merge request_thirds (env_of request_thirds)) = Fin 99.
Proof.
  split.
  - apply (C2_progress_when_all_resolved request_AB (env_of request_AB)
             [outcome_A;
              {| total := 2; updated := Some contact_C2; removed := Some ["D3"];
                 errors := Some [] |}]);
      [discriminate | reflexivity].
  - apply (C2_progress_when_all_resolved request_thirds (env_of request_thirds)
             [ {| total := 1; updated := Some contact_C1; removed := Some [];
                  errors := Some [] |};
               {| total := 1; updated := Some contact_C2; removed := Some [];
                  errors := Some [] |};
               {| total := 1; updated := Some contact_C3; removed := Some [];
                  errors := Some [] |} ]);
      [discriminate | reflexivity].
Defined.

(** ** A total of zero *)

Lemma progress_values_app evs1 evs2 :
  progress_values (evs1 ++ evs2) = progress_values evs1 ++ progress_values evs2.
Proof.
  induction evs1 as [| e evs1 IH]; simpl; [reflexivity |].
  destruct e; simpl; now rewrite IH.
Qed.

Lemma contact_updates_app evs1 evs2 :
  contact_updates (evs1 ++ evs2) = contact_updates evs1 ++ contact_updates evs2.
Proof.
  induction evs1 as [| e evs1 IH]; simpl; [reflexivity |].
  destruct e; simpl; now rewrite IH.
Qed.



(** ** The 'contactUpdated' notifications *)

Lemma call_event_no_contact_updates (acts : list (Async GroupOutcome)) :
  contact_updates (flat_map call_event acts) = [].
Proof.
  induction acts as [| a rest IH]; simpl; [reflexivity |].
  rewrite contact_updates_app, IH. now destruct a.
Qed.

(** One notification per resolved action, each carrying the factory's
    [update] function. *)
Lemma settle_contact_updates total_ st ev :
  Z.of_nat (List.length (contact_updates (log st))) = resolved_count (actions st) /\
  Forall (fun v => v = VFunction "update") (contact_updates (log st)) ->
  Z.of_nat (List.length (contact_updates (log (settle total_ st ev))))
    = resolved_count (actions (settle total_ st ev)) /\
  Forall (fun v => v = VFunction "update")
         (contact_updates (log (settle total_ st ev))).
Proof.
  intros [Hn Hall]. unfold settle.
  destruct (nth_error (actions st) (fst ev)) as [a |] eqn:Ha; [| now split].
  destruct (resume a (snd ev)) as [a' |] eqn:Hr; [| now split].
  pose proof (resume_pending _ _ _ Hr) as Hpend.
  unfold resolved_count in *.
  destruct a'; simpl;
    rewrite (sum_Z_replace_nth _ _ _ _ _ Ha), ?contact_updates_app, ?length_app;
    simpl; rewrite ?app_nil_r;
    (split; [destruct a; try contradiction; lia |]);
    try exact Hall.
  apply Forall_app. split; [exact Hall | now constructor].
Qed.

Lemma merge_contact_updates contacts env :
  Z.of_nat (List.length (contact_updates (log (merge contacts env))))
    = resolved_count (actions (merge contacts env)) /\
  Forall (fun v => v = VFunction "update")
         (contact_updates (log (merge contacts env))).
Proof.
  assert (H : forall sched,
             Z.of_nat (List.length (contact_updates (log (settle_all contacts sched))))
               = resolved_count (actions (settle_all contacts sched)) /\
             Forall (fun v => v = VFunction "update")
                    (contact_updates (log (settle_all contacts sched)))).
  { intros sched. unfold settle_all.
    assert (H0 : Z.of_nat (List.length (contact_updates (log (launch contacts))))
                 = resolved_count (actions (launch contacts)) /\
                 Forall (fun v => v = VFunction "update")
                        (contact_updates (log (launch contacts)))).
    { simpl. rewrite contact_updates_app, call_event_no_contact_updates. simpl.
      split; [| constructor]. unfold resolved_count.
      induction contacts as [| e l IH]; simpl; [reflexivity | exact IH]. }
    revert H0. generalize (launch contacts) as st.
    induction sched as [| ev rest IH]; intros st H0; simpl; [exact H0 |].
    apply IH. now apply settle_contact_updates. }
  unfold merge. specialize (H (schedule env)).
  rewrite finish_actions. unfold finish.
  destruct (promise (settle_all contacts (schedule env))); [| exact H].
  destruct (Promise_all (actions (settle_all contacts (schedule env))));
    [| exact H].
  simpl. rewrite contact_updates_app. simpl. now rewrite app_nil_r.
Qed.

(** C5, at a request of one group whose canonical record is [contact_C1]: the
    group resolves with [contact_C1] as its updated record and exactly one
    'contactUpdated' notification is emitted, but its [contact] is the
    factory's [update] function, not the record. *)
Theorem C5_contactUpdated_carries_update_function :
  Promise_all (actions (merge request_one (env_of request_one)))
    = Some [ {| total := 1; updated := Some contact_C1; removed := Some [];
                errors := Some [] |} ] /\
  contact_updates (log (merge request_one (env_of request_one)))
    = [VFunction "update"] /\
  VFunction "update" <> VContact contact_C1.
Proof.
  repeat split; try reflexivity. discriminate.
Qed.

(** ** merge runs the announcer on the results in the order they resolve *)

Lemma mergeProgressAnnouncer_snoc resolved result total_ :
  mergeProgressAnnouncer (resolved ++ [result]) total_ =
  (fst (announce total_ result (fst (mergeProgressAnnouncer resolved total_))),
   snd (mergeProgressAnnouncer resolved total_)
   ++ snd (announce total_ result (fst (mergeProgressAnnouncer resolved total_)))).
Proof.
  unfold mergeProgressAnnouncer. rewrite fold_left_app. simpl.
  now destruct (fold_left _ resolved (Fin 0, [])).
Qed.

Lemma announcer_events_app evs1 evs2 :
  announcer_events (evs1 ++ evs2) = announcer_events evs1 ++ announcer_events evs2.
Proof.
  apply filter_app.
Qed.

Lemma call_event_not_announcer {A} (a : Async A) :
  announcer_events (call_event a) = [].
Proof.
  now destruct a.
Qed.

Lemma settle_announcer total_ st ev :
  (exists resolved,
      mergeProgressAnnouncer resolved total_
      = (progress st, announcer_events (log st))) ->
  exists resolved,
    mergeProgressAnnouncer resolved total_
    = (progress (settle total_ st ev), announcer_events (log (settle total_ st ev))).
Proof.
  intros [resolved H]. unfold settle.
  destruct (nth_error (actions st) (fst ev)) as [a |]; [| now exists resolved].
  destruct (resume a (snd ev)) as [a' |]; [| now exists resolved].
  destruct a' as [result | error | contact k | IDs k]; simpl.
  - exists (resolved ++ [result]).
    rewrite mergeProgressAnnouncer_snoc, H, announcer_events_app. reflexivity.
  - now exists resolved.
  - exists resolved. now rewrite announcer_events_app, app_nil_r.
  - exists resolved. now rewrite announcer_events_app, app_nil_r.
Qed.

(** The counter and the announcer's notifications of a run are those of
    [mergeProgressAnnouncer] on the results in some order of resolution. *)
Lemma merge_runs_announcer contacts env :
  exists resolved,
    mergeProgressAnnouncer resolved (merge_total contacts)
    = (progress (merge contacts env), announcer_events (log (merge contacts env))).
Proof.
  assert (H : exists resolved,
             mergeProgressAnnouncer resolved (merge_total contacts)
             = (progress (settle_all contacts (schedule env)),
                announcer_events (log (settle_all contacts (schedule env))))).
  { unfold settle_all.
    assert (H0 : exists resolved,
               mergeProgressAnnouncer resolved (merge_total contacts)
               = (progress (launch contacts), announcer_events (log (launch contacts)))).
    { exists []. simpl. f_equal.
      rewrite announcer_events_app. simpl. rewrite app_nil_r.
      generalize (map (fun entry : string * MergeGroup => updateAndRemove (snd entry))
                      contacts) as acts.
      induction acts as [| a rest IH]; simpl; [reflexivity |].
      now rewrite announcer_events_app, call_event_not_announcer. }
    revert H0. generalize (launch contacts) as st.
    induction (schedule env) as [| ev rest IH]; intros st H0; simpl; [exact H0 |].
    apply IH. now apply settle_announcer. }
  destruct H as [resolved H]. exists resolved. rewrite H.
  unfold merge. rewrite finish_progress. f_equal.
  unfold finish. destruct (promise _); [| reflexivity].
  destruct (Promise_all _); [| reflexivity].
  simpl. now rewrite announcer_events_app, app_nil_r.
Qed.

(** ** Every request can be run to its end *)

Lemma nth_error_replace_nth_other {A} (l : list A) : forall i j x,
  i <> j -> nth_error (replace_nth i x l) j = nth_error l j.
Proof.
  induction l as [| y l IH]; intros [| i] [| j] x Hne; simpl; try reflexivity.
  - contradiction.
  - apply IH. congruence.
Qed.

Lemma settle_actions total_ st i r a a' :
  nth_error (actions st) i = Some a ->
  resume a r = Some a' ->
  actions (settle total_ st (i, r)) = replace_nth i a' (actions st).
Proof.
  intros Ha Hr. unfold settle; simpl. rewrite Ha, Hr. now destruct a'.
Qed.

(** Answering an action call after call brings it to its result and leaves
    the other actions alone. *)
Lemma answer_one store total_ (a : Async GroupOutcome) :
  reasoned_store store ->
  resolves_when_reasoned a ->
  forall st i,
    nth_error (actions st) i = Some a ->
    let st' := fold_left (settle total_) (map (pair i) (responses store a)) st in
    (exists outcome, nth_error (actions st') i = Some (Return outcome)) /\
    (forall j, j <> i -> nth_error (actions st') j = nth_error (actions st) j).
Proof.
  intros [Hsu Hsr].
  induction a as [outcome | error | contact k IH | IDs k IH]; simpl; intros Hal st i Ha.
  - split; [now exists outcome | reflexivity].
  - contradiction.
  - set (s := Contact_update store contact).
    assert (E : actions (settle total_ st (i, UpdateSettled s))
                = replace_nth i (k s) (actions st))
      by (now apply settle_actions with (Call_update contact k)).
    destruct (IH s (Hal s (Hsu contact)) (settle total_ st (i, UpdateSettled s)) i)
      as [Hres Hoth].
    { rewrite E. now apply nth_error_replace_nth with (Call_update contact k). }
    split; [exact Hres |].
    intros j Hj. rewrite (Hoth j Hj), E. apply nth_error_replace_nth_other. congruence.
  - set (s := Contact_remove store IDs).
    assert (E : actions (settle total_ st (i, RemoveSettled s))
                = replace_nth i (k s) (actions st))
      by (now apply settle_actions with (Call_remove IDs k)).
    destruct (IH s (Hal s (Hsr IDs)) (settle total_ st (i, RemoveSettled s)) i)
      as [Hres Hoth].
    { rewrite E. now apply nth_error_replace_nth with (Call_remove IDs k). }
    split; [exact Hres |].
    intros j Hj. rewrite (Hoth j Hj), E. apply nth_error_replace_nth_other. congruence.
Qed.

Lemma updateAndRemove_resolves group :
  resolves_when_reasoned (updateAndRemove group).
Proof.
  unfold updateAndRemove; simpl.
  intros [response | error] Hs; simpl.
  - intros [answer | error] Hs'; simpl; [exact I |].
    destruct error; simpl in *; tauto.
  - destruct error; simpl in *; tauto.
Qed.

Lemma answer_in_turn store total_ (groups : MergeRequest) :
  reasoned_store store ->
  forall i st,
  (forall j entry, nth_error groups j = Some entry ->
                   nth_error (actions st) (i + j) = Some (updateAndRemove (snd entry))) ->
  let st' := fold_left (settle total_) (sequential_schedule store i groups) st in
  (forall j entry, nth_error groups j = Some entry ->
                   exists outcome, nth_error (actions st') (i + j) = Some (Return outcome)) /\
  (forall j, (j < i)%nat -> nth_error (actions st') j = nth_error (actions st) j).
Proof.
  intros Hstore.
  induction groups as [| entry rest IH]; intros i st Hst; simpl.
  - split; [intros [| j] e E; discriminate | reflexivity].
  - rewrite fold_left_app.
    destruct (answer_one store total_ _ Hstore (updateAndRemove_resolves (snd entry)) st i)
      as [[outcome Hres] Hoth].
    { specialize (Hst 0%nat entry eq_refl). now rewrite Nat.add_0_r in Hst. }
    set (st1 := fold_left (settle total_)
                  (map (pair i) (responses store (updateAndRemove (snd entry)))) st) in *.
    destruct (IH (S i) st1) as [Hrest Hlow].
    { intros j e E. rewrite Hoth by lia.
      replace (S i + j)%nat with (i + S j)%nat by lia. now apply Hst. }
    split.
    + intros [| j] e E; simpl in E.
      * exists outcome. rewrite Nat.add_0_r, Hlow by lia. exact Hres.
      * replace (i + S j)%nat with (S i + j)%nat by lia. now apply Hrest with e.
    + intros j Hj. rewrite Hlow by lia. apply Hoth. lia.
Qed.

Lemma settle_length total_ st ev :
  List.length (actions (settle total_ st ev)) = List.length (actions st).
Proof.
  unfold settle.
  destruct (nth_error (actions st) (fst ev)) as [a |]; [| reflexivity].
  destruct (resume a (snd ev)) as [a' |]; [| reflexivity].
  destruct a'; simpl; apply replace_nth_length.
Qed.

Lemma settle_all_length contacts sched :
  List.length (actions (settle_all contacts sched)) = List.length contacts.
Proof.
  unfold settle_all.
  assert (H0 : List.length (actions (launch contacts)) = List.length contacts)
    by (simpl; apply length_map).
  revert H0. generalize (launch contacts) as st.
  induction sched as [| ev rest IH]; intros st H0; simpl; [exact H0 |].
  apply IH. now rewrite settle_length.
Qed.

Lemma Promise_all_pointwise (acts : list (Async GroupOutcome)) :
  (forall j, (j < List.length acts)%nat ->
             exists outcome, nth_error acts j = Some (Return outcome)) ->
  exists results, Promise_all acts = Some results.
Proof.
  induction acts as [| a rest IH]; intros H; simpl.
  - now exists [].
  - destruct (H 0%nat) as [outcome E]; [simpl; lia |].
    simpl in E. injection E as ->.
    destruct IH as [results ->].
    { intros j Hj. apply (H (S j)). simpl. lia. }
    now eexists.
Qed.

(** Whatever a store answers, as long as its rejections carry a reason,
    answering the groups in turn resolves every action: the hypotheses of the
    results about finished runs can be met for every request and every such
    store. *)
Lemma sequential_schedule_resolves_all contacts store :
  reasoned_store store ->
  exists results,
    Promise_all (actions (settle_all contacts (sequential_schedule store 0 contacts)))
    = Some results.
Proof.
  intros Hstore.
  apply Promise_all_pointwise. rewrite settle_all_length. intros j Hj.
  unfold settle_all.
  destruct (answer_in_turn store (merge_total contacts) contacts Hstore 0
                           (launch contacts))
    as [Hres _].
  { intros i entry E. simpl. now rewrite nth_error_map, E. }
  destruct (nth_error contacts j) as [entry |] eqn:E.
  - apply (Hres j entry E).
  - apply nth_error_None in E. lia.
Qed.

(** With such a schedule the promise [merge] returns settles as the final
    [eventManager.call()] does, fulfilled or rejected. *)
Lemma merge_settles contacts store sync_ :
  reasoned_store store ->
  promise (merge contacts {| schedule := sequential_schedule store 0 contacts;
                             sync := sync_ |})
  = Resolved sync_.
Proof.
  intros Hstore.
  destruct (sequential_schedule_resolves_all contacts store Hstore) as [results HA].
  pose proof (pending_when_all_resolved _ _ _
                (settle_all_invariant contacts (sequential_schedule store 0 contacts))
                HA) as HP.
  unfold merge; simpl. now rewrite (finish_resolved _ _ _ HP HA).
Qed.

(** * Further properties of the merge run *)

(** ** What the results of a finished run can be *)

Lemma settle_actions_satisfy P contacts total_ st ev :
  actions_satisfy P contacts (actions st) ->
  actions_satisfy P contacts (actions (settle total_ st ev)).
Proof.
  unfold actions_satisfy. intros HF. unfold settle.
  destruct (nth_error (actions st) (fst ev)) as [a |] eqn:Ha; [| exact HF].
  destruct (resume a (snd ev)) as [a' |] eqn:Hr; [| exact HF].
  destruct (Forall2_nth_error _ _ _ HF _ _ Ha) as (entry & He & Hal).
  pose proof (results_satisfy_resume _ _ _ _ Hal Hr) as Hal'.
  assert (HF' : Forall2 (fun (entry : string * MergeGroup) a =>
                          results_satisfy (P (snd entry)) a)
                        contacts (replace_nth (fst ev) a' (actions st)))
    by (now apply Forall2_replace_nth with entry).
  now destruct a'.
Qed.

Lemma settle_all_satisfy P contacts sched :
  (forall group, results_satisfy (P group) (updateAndRemove group)) ->
  actions_satisfy P contacts (actions (settle_all contacts sched)).
Proof.
  intros HP. unfold settle_all.
  assert (H0 : actions_satisfy P contacts (actions (launch contacts))).
  { unfold actions_satisfy; simpl.
    induction contacts as [| entry rest IH]; simpl; constructor; [apply HP | exact IH]. }
  revert H0. generalize (launch contacts) as st.
  induction sched as [| ev rest IH]; intros st H0; simpl; [exact H0 |].
  apply IH. now apply settle_actions_satisfy.
Qed.

Lemma resolved_satisfy P contacts acts results :
  actions_satisfy P contacts acts ->
  Promise_all acts = Some results ->
  Forall2 (fun (entry : string * MergeGroup) outcome => P (snd entry) outcome)
          contacts results.
Proof.
  unfold actions_satisfy. intros HF E.
  apply Promise_all_results in E. subst acts.
  revert results HF.
  induction contacts as [| entry rest IH]; intros results HF;
    inversion HF as [| ? a ? acts Ha Hrest E1 E2]; subst.
  - destruct results; [constructor | discriminate].
  - destruct results as [| r rs]; [discriminate |].
    simpl in E2. injection E2 as -> ->. constructor; [exact Ha | now apply IH].
Qed.

(** X1: in every finished run, the total of the summary sent with
    'contactsMerged' is the total the progress was measured against. *)
Theorem summary_total_is_merge_total (contacts : MergeRequest)
    (sched : list (nat * Response)) (results : list GroupOutcome) :
  Promise_all (actions (settle_all contacts sched)) = Some results ->
  agg_total (summarizeMergeResults results) = merge_total contacts.
Proof.
  intros HA.
  rewrite summarize_fields; simpl.
  rewrite (resolved_totals _ _ _ (settle_all_invariant contacts sched) HA).
  symmetry. apply merge_total_sum.
Qed.

Lemma summary_total_is_merge_total_witness :
  agg_total (summarizeMergeResults
               [outcome_A;
                {| total := 2; updated := Some contact_C2; removed := Some ["D3"];
                   errors := Some [] |}])
  = merge_total request_AB.
Proof.
  apply (summary_total_is_merge_total request_AB (schedule (env_of request_AB))).
  reflexivity.
Defined.

Lemma updateAndRemove_updated group :
  results_satisfy
    (fun outcome => updated outcome = None \/ updated outcome = Some (update group))
    (updateAndRemove group).
Proof.
  unfold updateAndRemove; simpl.
  intros [response | error]; simpl.
  - intros [answer | error]; simpl; [now right |].
    destruct (message error); simpl; [| exact I].
    destruct (instanceof_ContactUpdateError error); auto.
  - destruct (message error); simpl; [| exact I].
    destruct (instanceof_ContactUpdateError error); auto.
Qed.

Lemma updated_of_groups contacts results :
  Forall2 (fun (entry : string * MergeGroup) outcome =>
             updated outcome = None \/ updated outcome = Some (update (snd entry)))
          contacts results ->
  flat_map (fun r => option_list (updated r)) results
  = pick (map has_updated results)
         (map (fun entry : string * MergeGroup => update (snd entry)) contacts) /\
  List.length results = List.length contacts.
Proof.
  induction 1 as [| entry r contacts results Hr _ [IHe IHl]]; simpl.
  - now split.
  - unfold has_updated at 1. destruct Hr as [-> | ->]; simpl; rewrite IHe, IHl; now split.
Qed.

(** X2: whatever the store answers and in whatever order, the records listed
    as updated in the summary of a finished run are the canonical records of
    the request's groups, in key order, without those of the groups whose
    outcome has no updated record: each group contributes its own record,
    once, or nothing. *)
Theorem summary_updated_from_groups (contacts : MergeRequest)
    (sched : list (nat * Response)) (results : list GroupOutcome) :
  Promise_all (actions (settle_all contacts sched)) = Some results ->
  agg_updated (summarizeMergeResults results)
  = pick (map has_updated results)
         (map (fun entry : string * MergeGroup => update (snd entry)) contacts) /\
  List.length results = List.length contacts.
Proof.
  intros HA. rewrite summarize_fields; simpl.
  apply updated_of_groups.
  apply (resolved_satisfy
           (fun group outcome =>
              updated outcome = None \/ updated outcome = Some (update group))
           contacts (actions (settle_all contacts sched)) results);
    [| exact HA].
  apply settle_all_satisfy. apply updateAndRemove_updated.
Qed.

Lemma summary_updated_from_groups_witness :
  agg_updated (summarizeMergeResults
                 [ {| total := 3; updated := None; removed := None;
                      errors := Some [Some "conflict"] |};
                   {| total := 2; updated := None; removed := None;
                      errors := Some [Some "conflict"] |} ])
  = pick [false; false] [contact_C1; contact_C2] /\
  agg_updated (summarizeMergeResults
                 [outcome_A;
                  {| total := 2; updated := Some contact_C2;
                     removed := Some ["D3"]; errors := Some [] |}])
  = pick [true; true] [contact_C1; contact_C2].
Proof.
  split.
  - apply (summary_updated_from_groups
             request_AB (sequential_schedule conflicting_store 0 request_AB)).
    reflexivity.
  - apply (summary_updated_from_groups request_AB (schedule (env_of request_AB))).
    reflexivity.
Defined.

(** ** The progress values of a run *)

Lemma StronglySorted_snoc (ps : list Z) (x : Z) :
  StronglySorted Z.le ps ->
  Forall (fun p => p <= x) ps ->
  StronglySorted Z.le (ps ++ [x]).
Proof.
  induction 1 as [| p ps Hs IH Hp]; intros Hx; simpl.
  - repeat constructor.
  - inversion Hx as [| ? ? Hpx Hrest]; subst.
    constructor; [now apply IH |].
    apply Forall_app. split; [exact Hp | now constructor].
Qed.

Lemma progress_values_call_event {A} (a : Async A) :
  progress_values (call_event a) = [].
Proof.
  now destruct a.
Qed.

Lemma settle_progress_invariant contacts total_ st ev :
  0 < total_ ->
  run_invariant contacts st ->
  progress_invariant total_ st ->
  progress_invariant total_ (settle total_ st ev).
Proof.
  intros HT [HF _] (HP & H0 & ps & Hps & Hsorted & Hbound).
  unfold progress_invariant, progress_history, settle.
  destruct (nth_error (actions st) (fst ev)) as [a |] eqn:Ha;
    [| split; [exact HP | split; [exact H0 | now exists ps]]].
  destruct (resume a (snd ev)) as [a' |] eqn:Hr;
    [| split; [exact HP | split; [exact H0 | now exists ps]]].
  destruct (Forall2_nth_error _ _ _ HF _ _ Ha) as (entry & He & Hal).
  pose proof (results_satisfy_resume _ _ _ _ Hal Hr) as Hal'.
  pose proof (resume_pending _ _ _ Hr) as Hpend.
  set (f := fun a : Async GroupOutcome =>
              match a with
              | Return result => total result * 100 / total_
              | _ => 0
              end).
  assert (Hfa : f a = 0) by (destruct a; simpl; try contradiction; reflexivity).
  assert (Hsum : resolved_progress total_ (replace_nth (fst ev) a' (actions st))
                 = resolved_progress total_ (actions st) + f a').
  { unfold resolved_progress. fold f.
    rewrite (sum_Z_replace_nth f _ _ _ a' Ha), Hfa. lia. }
  set (P := resolved_progress total_ (actions st)) in *.
  destruct a' as [result | error | contact k | IDs k]; simpl in Hal' |- *.
  - assert (Hq : 0 <= total result * 100 / total_).
    { apply Z.div_pos; [| exact HT]. rewrite Hal'. unfold group_total. lia. }
    rewrite Hsum; simpl. rewrite HP.
    unfold Math_floor_div. destruct (Z.eqb_spec total_ 0) as [E | _]; [lia |].
    simpl. split; [reflexivity |]. split; [lia |].
    exists (ps ++ [P + total result * 100 / total_]).
    rewrite progress_values_app, Hps, map_app. simpl.
    split; [reflexivity |]. split.
    + apply StronglySorted_snoc; [exact Hsorted |].
      apply Forall_forall. intros p Hp.
      pose proof (proj1 (Forall_forall _ _) Hbound p Hp) as Hb. simpl in Hb. lia.
    + apply Forall_app. split.
      * apply Forall_forall. intros p Hp.
        pose proof (proj1 (Forall_forall _ _) Hbound p Hp) as Hb. simpl in Hb. lia.
      * constructor; [lia | constructor].
  - rewrite Hsum; simpl. rewrite Z.add_0_r. split; [exact HP |]. split; [exact H0 |].
    now exists ps.
  - rewrite Hsum; simpl. rewrite Z.add_0_r. split; [exact HP |]. split; [exact H0 |].
    exists ps. now rewrite progress_values_app, app_nil_r.
  - rewrite Hsum; simpl. rewrite Z.add_0_r. split; [exact HP |]. split; [exact H0 |].
    exists ps. now rewrite progress_values_app, app_nil_r.
Qed.

Lemma resolved_progress_le contacts acts total_ :
  0 < total_ ->
  Forall2 (fun (entry : string * MergeGroup) a =>
             results_satisfy (fun outcome => total outcome = group_total (snd entry)) a)
          contacts acts ->
  resolved_progress total_ acts
  <= sum_Z (map (fun entry : string * MergeGroup =>
                   group_total (snd entry) * 100 / total_) contacts).
Proof.
  intros HT. unfold resolved_progress.
  induction 1 as [| entry a contacts acts Ha _ IH]; simpl; [lia |].
  assert (Hg : 0 <= group_total (snd entry) * 100 / total_)
    by (apply Z.div_pos; [unfold group_total; lia | exact HT]).
  unfold sum_Z in *.
  destruct a; simpl in Ha; try lia.
  rewrite Ha. lia.
Qed.

Lemma settle_all_progress_invariant contacts sched :
  contacts <> [] ->
  progress_invariant (merge_total contacts) (settle_all contacts sched).
Proof.
  intros Hne. pose proof (merge_total_positive _ Hne) as HT.
  unfold settle_all.
  assert (H0 : progress_invariant (merge_total contacts) (launch contacts)).
  { assert (E : resolved_progress (merge_total contacts) (actions (launch contacts)) = 0).
    { simpl. unfold resolved_progress. generalize (merge_total contacts) as T. clear.
      induction contacts as [| e l IH]; intros T; simpl; [reflexivity | apply IH]. }
    unfold progress_invariant. rewrite E. split; [reflexivity |]. split; [lia |].
    exists []. simpl. split; [| split; constructor].
    rewrite progress_values_app. simpl. rewrite app_nil_r.
    generalize (map (fun entry : string * MergeGroup => updateAndRemove (snd entry))
                    contacts) as acts.
    induction acts as [| a rest IH]; simpl; [reflexivity |].
    now rewrite progress_values_app, progress_values_call_event. }
  pose proof (launch_invariant contacts) as Hinv.
  revert H0 Hinv. generalize (launch contacts) as st.
  induction sched as [| ev rest IH]; intros st H0 Hinv; simpl; [exact H0 |].
  apply IH.
  - now apply settle_progress_invariant with contacts.
  - now apply settle_invariant.
Qed.

(** X3: in every run, finished or not, the progress values emitted so far
    are finite numbers that never decrease and lie between 0 and 100. *)
Theorem merge_progress_values_monotone_bounded (contacts : MergeRequest)
    (env : Environment) :
  exists ps,
    progress_values (log (merge contacts env)) = map Fin ps /\
    StronglySorted Z.le ps /\
    Forall (fun p => 0 <= p <= 100) ps.
Proof.
  assert (Hlog : progress_values (log (merge contacts env))
                 = progress_values (log (settle_all contacts (schedule env)))).
  { unfold merge, finish. destruct (promise _); [| reflexivity].
    destruct (Promise_all _); [| reflexivity].
    simpl. now rewrite progress_values_app, app_nil_r. }
  rewrite Hlog.
  destruct contacts as [| entry rest].
  - rewrite settle_all_empty. exists []. repeat split; constructor.
  - assert (Hne : entry :: rest <> []) by discriminate.
    destruct (settle_all_progress_invariant _ (schedule env) Hne)
      as (_ & _ & ps & Hps & Hsorted & Hbound).
    exists ps. split; [exact Hps |]. split; [exact Hsorted |].
    destruct (settle_all_invariant (entry :: rest) (schedule env)) as [HF _].
    pose proof (resolved_progress_le _ _ _ (merge_total_positive _ Hne) HF) as Hle.
    fold (contributions (entry :: rest)) in Hle.
    destruct (contributions_bounds _ Hne) as [[_ Hc] _].
    apply Forall_forall. intros p Hp.
    pose proof (proj1 (Forall_forall _ _) Hbound p Hp) as Hb. simpl in Hb. lia.
Qed.

(** ** How the promise settles, and when *)

(** X4: when every action has resolved and the final [eventManager.call()]
    is rejected, the promise of [merge] is rejected with that error, after
    'contactsUpdated' and 'contactsMerged' (with the summary of all outcomes)
    have been emitted. *)
Theorem merge_rejects_as_sync (contacts : MergeRequest) (env : Environment)
    (results : list GroupOutcome) (error : Thrown) :
  Promise_all (actions (settle_all contacts (schedule env))) = Some results ->
  sync env = Rejected error ->
  promise (merge contacts env) = Resolved (Rejected error) /\
  log (merge contacts env) =
    log (settle_all contacts (schedule env))
    ++ [EmitContactsUpdated;
        EmitContactsMerged (summarizeMergeResults results);
        EventManagerCall].
Proof.
  intros HA HS. unfold merge.
  pose proof (pending_when_all_resolved _ _ _
                (settle_all_invariant contacts (schedule env)) HA) as HP.
  rewrite (finish_resolved _ _ _ HP HA), HS. now split.
Qed.

Lemma merge_rejects_as_sync_witness :
  promise (merge request_one
             {| schedule := sequential_schedule partial_store 0 request_one;
                sync := Rejected (OtherError (Some "offline")) |})
    = Resolved (Rejected (OtherError (Some "offline"))) /\
  log (merge request_one
         {| schedule := sequential_schedule partial_store 0 request_one;
            sync := Rejected (OtherError (Some "offline")) |})
    = [LoaderModalActivate; StoreUpdate contact_C1; NetworkTrack; StoreRemove [];
       EmitProgressBar (Fin 100); EmitContactUpdated (VFunction "update");
       EmitContactsUpdated;
       EmitContactsMerged {| agg_updated := [contact_C1]; agg_removed := [];
                             agg_errors := []; agg_total := 1 |};
       EventManagerCall].
Proof.
  apply (merge_rejects_as_sync request_one
           {| schedule := sequential_schedule partial_store 0 request_one;
              sync := Rejected (OtherError (Some "offline")) |}
           [ {| total := 1; updated := Some contact_C1; removed := Some [];
                errors := Some [] |} ]
           (OtherError (Some "offline"))); reflexivity.
Defined.

Lemma closing_events_app evs1 evs2 :
  closing_events (evs1 ++ evs2) = closing_events evs1 ++ closing_events evs2.
Proof.
  apply filter_app.
Qed.

Lemma settle_no_closing total_ st ev :
  closing_events (log st) = [] -> closing_events (log (settle total_ st ev)) = [].
Proof.
  intros H. unfold settle.
  destruct (nth_error (actions st) (fst ev)) as [a |]; [| exact H].
  destruct (resume a (snd ev)) as [a' |]; [| exact H].
  destruct a'; simpl; rewrite ?closing_events_app, ?H; reflexivity.
Qed.

Lemma settle_all_no_closing contacts sched :
  closing_events (log (settle_all contacts sched)) = [].
Proof.
  unfold settle_all.
  assert (H0 : closing_events (log (launch contacts)) = []).
  { simpl. rewrite closing_events_app. simpl. rewrite app_nil_r.
    generalize (map (fun entry : string * MergeGroup => updateAndRemove (snd entry))
                    contacts) as acts.
    induction acts as [| a rest IH]; simpl; [reflexivity |].
    rewrite closing_events_app, IH. now destruct a. }
  revert H0. generalize (launch contacts) as st.
  induction sched as [| ev rest IH]; intros st H0; simpl; [exact H0 |].
  apply IH. now apply settle_no_closing.
Qed.

(** X5: as long as one action has not resolved, neither 'contactsUpdated'
    nor 'contactsMerged' has been emitted, nor [eventManager.call()] made; the
    promise of [merge] is then pending if no action has rejected, and
    otherwise already rejected with what a rejected action threw, the other
    actions carrying on.  Once all actions have resolved, the three happen
    exactly once, in that order, at the end of the log, and the promise
    settles as the call does. *)
Theorem merge_closes_once_all_resolved (contacts : MergeRequest) (env : Environment) :
  (Promise_all (actions (merge contacts env)) = None ->
   closing_events (log (merge contacts env)) = [] /\
   ((promise (merge contacts env) = Pending /\
     Forall (fun a => ~ thrown a) (actions (merge contacts env))) \/
    (exists error,
        promise (merge contacts env) = Resolved (Rejected error) /\
        In (Throw error) (actions (merge contacts env))))) /\
  (forall results,
      Promise_all (actions (merge contacts env)) = Some results ->
      promise (merge contacts env) = Resolved (sync env) /\
      closing_events (log (merge contacts env))
        = [EmitContactsUpdated;
           EmitContactsMerged (summarizeMergeResults results);
           EventManagerCall]).
Proof.
  pose proof (settle_all_invariant contacts (schedule env)) as Hinv.
  pose proof (settle_all_no_closing contacts (schedule env)) as Hno.
  unfold merge. rewrite finish_actions. split.
  - intros HA.
    assert (E : finish (sync env) (settle_all contacts (schedule env))
                = settle_all contacts (schedule env)).
    { unfold finish. rewrite HA. now destruct (promise _). }
    rewrite E. split; [exact Hno | apply Hinv].
  - intros results HA.
    pose proof (pending_when_all_resolved _ _ _ Hinv HA) as HP.
    rewrite (finish_resolved _ _ _ HP HA); simpl.
    split; [reflexivity |].
    now rewrite closing_events_app, Hno.
Qed.

Lemma merge_closes_once_all_resolved_witness :
  promise (merge request_AB {| schedule := [(0%nat, UpdateSettled update_ok)];
                               sync := Fulfilled VUndefined |}) = Pending /\
  promise (merge request_AB
             {| schedule := [(1%nat, UpdateSettled (Rejected (NoReason JsUndefined)))];
                sync := Fulfilled VUndefined |})
    = Resolved (Rejected (TypeError_reading "message" JsUndefined)) /\
  closing_events (log (merge request_AB (env_of request_AB)))
    = [EmitContactsUpdated;
       EmitContactsMerged {| agg_updated := [contact_C1; contact_C2];
                             agg_removed := ["D1"; "D2"; "D3"];
                             agg_errors := [];
                             agg_total := 5 |};
       EventManagerCall].
Proof.
  split; [| split].
  - destruct (proj1 (merge_closes_once_all_resolved request_AB
                       {| schedule := [(0%nat, UpdateSettled update_ok)];
                          sync := Fulfilled VUndefined |}) eq_refl)
      as [_ [[HP _] | (error & HP & _)]]; [exact HP | discriminate HP].
  - reflexivity.
  - apply (proj2 (merge_closes_once_all_resolved request_AB (env_of request_AB))
                 [outcome_A;
                  {| total := 2; updated := Some contact_C2; removed := Some ["D3"];
                     errors := Some [] |}]).
    reflexivity.
Defined.

(** ** The calls made to the record store *)

Lemma store_updates_app evs1 evs2 :
  store_updates (evs1 ++ evs2) = store_updates evs1 ++ store_updates evs2.
Proof.
  induction evs1 as [| e evs1 IH]; simpl; [reflexivity |].
  destruct e; simpl; now rewrite IH.
Qed.

Lemma store_removes_app evs1 evs2 :
  store_removes (evs1 ++ evs2) = store_removes evs1 ++ store_removes evs2.
Proof.
  induction evs1 as [| e evs1 IH]; simpl; [reflexivity |].
  destruct e; simpl; now rewrite IH.
Qed.

Lemma updateAndRemove_stage group : stage group (updateAndRemove group).
Proof.
  unfold updateAndRemove; simpl. split; [reflexivity |].
  intros [response | error]; simpl.
  - right. right. split; [reflexivity |].
    intros [answer | error]; simpl; [now left |].
    destruct (message error); simpl; tauto.
  - destruct (message error); simpl; tauto.
Qed.

(** An action leaving the update stage frees its group's removal. *)
Lemma awaiting_update_leaves (contacts : MergeRequest) : forall acts i entry a a',
  nth_error contacts i = Some entry ->
  nth_error acts i = Some a ->
  awaits_update a -> ~ awaits_update a' ->
  Permutation (remove (snd entry) :: awaiting_update contacts (replace_nth i a' acts))
              (awaiting_update contacts acts).
Proof.
  induction contacts as [| e contacts IH]; intros [| b acts] [| i] entry a a' He Ha Hu Hn;
    simpl in *; try discriminate.
  - injection He as ->. injection Ha as ->.
    destruct a; try contradiction. destruct a'; simpl; try reflexivity.
    exfalso. now apply Hn.
  - specialize (IH acts i entry a a' He Ha Hu Hn).
    destruct b; simpl; try exact IH.
    rewrite perm_swap. now constructor.
Qed.

Lemma awaiting_update_same (contacts : MergeRequest) : forall acts i a a',
  nth_error acts i = Some a ->
  ~ awaits_update a -> ~ awaits_update a' ->
  awaiting_update contacts (replace_nth i a' acts) = awaiting_update contacts acts.
Proof.
  induction contacts as [| e contacts IH]; intros [| b acts] [| i] a a' Ha Hu Hn;
    simpl in *; try discriminate; try reflexivity.
  - injection Ha as ->.
    destruct a; destruct a'; simpl; try reflexivity;
      try (exfalso; now apply Hu); exfalso; now apply Hn.
  - rewrite (IH acts i a a' Ha Hu Hn). reflexivity.
Qed.

Lemma settle_store_invariant contacts total_ st ev :
  store_invariant contacts st -> store_invariant contacts (settle total_ st ev).
Proof.
  intros (HF & HU & skipped & HR). unfold settle.
  destruct (nth_error (actions st) (fst ev)) as [a |] eqn:Ha;
    [| split; [exact HF | split; [exact HU | now exists skipped]]].
  destruct (resume a (snd ev)) as [a' |] eqn:Hr;
    [| split; [exact HF | split; [exact HU | now exists skipped]]].
  destruct (Forall2_nth_error _ _ _ HF _ _ Ha) as (entry & He & Hst).
  destruct a as [? | ? | contact k | IDs k]; destruct (snd ev) as [s | s];
    simpl in Hr; try discriminate; injection Hr as <-.
  - (* the update settles *)
    destruct Hst as [_ Hnext]. specialize (Hnext s).
    assert (Hleave : forall a', ~ awaits_update a' ->
              Permutation (remove (snd entry)
                           :: awaiting_update contacts (replace_nth (fst ev) a' (actions st)))
                          (awaiting_update contacts (actions st))).
    { intros a' Hn. now apply awaiting_update_leaves with (Call_update contact k). }
    destruct (k s) as [result | error | contact' k' | IDs k'] eqn:Ek;
      simpl in Hnext; [| | tauto |].
    + unfold store_invariant; simpl.
      split; [now apply Forall2_replace_nth with entry |].
      split; [now rewrite store_updates_app, app_nil_r |].
      exists (remove (snd entry) :: skipped).
      rewrite store_removes_app, app_nil_r.
      rewrite <- HR. apply Permutation_app_head.
      rewrite <- Permutation_middle.
      change (Permutation
                ((remove (snd entry)
                  :: awaiting_update contacts
                       (replace_nth (fst ev) (Return result) (actions st))) ++ skipped)
                (awaiting_update contacts (actions st) ++ skipped)).
      apply Permutation_app_tail. apply Hleave. simpl. tauto.
    + unfold store_invariant; simpl.
      split; [now apply Forall2_replace_nth with entry |].
      split; [exact HU |].
      exists (remove (snd entry) :: skipped).
      rewrite <- HR. apply Permutation_app_head.
      rewrite <- Permutation_middle.
      change (Permutation
                ((remove (snd entry)
                  :: awaiting_update contacts
                       (replace_nth (fst ev) (Throw error) (actions st))) ++ skipped)
                (awaiting_update contacts (actions st) ++ skipped)).
      apply Permutation_app_tail. apply Hleave. simpl. tauto.
    + destruct Hnext as [[] | [[] | [-> Hk']]].
      unfold store_invariant; simpl.
      split; [apply Forall2_replace_nth with entry; simpl; auto |].
      split; [now rewrite store_updates_app, app_nil_r |].
      exists skipped.
      rewrite store_removes_app; simpl. rewrite <- app_assoc; simpl.
      rewrite <- HR. apply Permutation_app_head.
      change (Permutation
                ((remove (snd entry)
                  :: awaiting_update contacts
                       (replace_nth (fst ev) (Call_remove (remove (snd entry)) k')
                                    (actions st))) ++ skipped)
                (awaiting_update contacts (actions st) ++ skipped)).
      apply Permutation_app_tail. apply Hleave. simpl. tauto.
  - (* the removal settles *)
    destruct Hst as [_ Hnext]. specialize (Hnext s).
    destruct (k s) as [result | error | contact' k' | IDs' k'] eqn:Ek;
      simpl in Hnext; [| | tauto | tauto].
    + unfold store_invariant; simpl.
      split; [now apply Forall2_replace_nth with entry |].
      split; [now rewrite store_updates_app, app_nil_r |].
      exists skipped.
      rewrite store_removes_app, app_nil_r.
      rewrite (awaiting_update_same contacts _ _ (Call_remove IDs k) (Return result) Ha);
        simpl; tauto.
    + unfold store_invariant; simpl.
      split; [now apply Forall2_replace_nth with entry |].
      split; [exact HU |].
      exists skipped.
      rewrite (awaiting_update_same contacts _ _ (Call_remove IDs k) (Throw error) Ha);
        simpl; tauto.
Qed.

Lemma launch_store_invariant contacts : store_invariant contacts (launch contacts).
Proof.
  unfold store_invariant; simpl.
  assert (Hcalls : forall l : MergeRequest,
             flat_map call_event
                      (map (fun entry : string * MergeGroup => updateAndRemove (snd entry)) l)
             = map (fun entry : string * MergeGroup => StoreUpdate (update (snd entry))) l).
  { induction l as [| e l IH]; simpl; [reflexivity | now rewrite IH]. }
  rewrite Hcalls. split; [| split].
  - induction contacts as [| e l IH]; simpl; constructor;
      [apply updateAndRemove_stage | exact IH].
  - rewrite store_updates_app. simpl. rewrite app_nil_r.
    induction contacts as [| e l IH]; simpl; [reflexivity | now rewrite IH].
  - exists []. rewrite store_removes_app. simpl. rewrite !app_nil_r.
    assert (E : store_removes
                  (map (fun entry : string * MergeGroup =>
                          StoreUpdate (update (snd entry))) contacts) = [])
      by (induction contacts as [| e l IH]; simpl; [reflexivity | exact IH]).
    rewrite E; simpl.
    assert (EA : awaiting_update contacts
                   (map (fun entry : string * MergeGroup => updateAndRemove (snd entry))
                        contacts)
                 = map (fun entry : string * MergeGroup => remove (snd entry)) contacts).
    { induction contacts as [| e l IH]; [reflexivity |].
      cbn [map awaiting_update]. unfold updateAndRemove at 1. simpl.
      now rewrite IH. }
    now rewrite EA.
Qed.

(** X6: in every run, finished or not, [Contact.update] has been called
    exactly once per group, with the groups' canonical records in key order,
    and [Contact.remove] at most once per group, each time with the whole
    [remove] list of that group. *)
Theorem merge_store_calls (contacts : MergeRequest) (env : Environment) :
  store_updates (log (merge contacts env))
    = map (fun entry : string * MergeGroup => update (snd entry)) contacts /\
  exists not_called,
    Permutation (store_removes (log (merge contacts env)) ++ not_called)
                (map (fun entry : string * MergeGroup => remove (snd entry)) contacts).
Proof.
  assert (H : store_invariant contacts (settle_all contacts (schedule env))).
  { unfold settle_all.
    generalize (launch_store_invariant contacts). generalize (launch contacts) as st.
    induction (schedule env) as [| ev rest IH]; intros st H0; simpl; [exact H0 |].
    apply IH. now apply settle_store_invariant. }
  destruct H as (_ & HU & skipped & HR).
  assert (EU : store_updates (log (merge contacts env))
               = store_updates (log (settle_all contacts (schedule env)))).
  { unfold merge, finish. destruct (promise _); [| reflexivity].
    destruct (Promise_all _); [| reflexivity].
    simpl. now rewrite store_updates_app, app_nil_r. }
  assert (ER : store_removes (log (merge contacts env))
               = store_removes (log (settle_all contacts (schedule env)))).
  { unfold merge, finish. destruct (promise _); [| reflexivity].
    destruct (Promise_all _); [| reflexivity].
    simpl. now rewrite store_removes_app, app_nil_r. }
  rewrite EU, ER. split; [exact HU |].
  now exists (awaiting_update contacts (actions (settle_all contacts (schedule env)))
              ++ skipped).
Qed.

(** ** More on the outcome of one group *)

(** X7: an outcome of [updateAndRemove] lacks its updated record exactly
    when the call that failed, the update or the removal after a fulfilled
    update, was rejected with a [ContactUpdateError]; in every other case,
    failed update included, the updated record is the group's own.  An
    outcome is produced whenever the rejections carry a reason. *)
Theorem updateAndRemove_updated_absent_iff (group : MergeGroup) (store : Store) :
  (reasoned (Contact_update store (update group)) ->
   reasoned (Contact_remove store (remove group)) ->
   exists outcome,
     snd (run_async store (updateAndRemove group)) = Fulfilled outcome) /\
  (forall outcome,
      snd (run_async store (updateAndRemove group)) = Fulfilled outcome ->
      (updated outcome = None \/ updated outcome = Some (update group)) /\
      (updated outcome = None <->
       (exists msg,
           Contact_update store (update group) = Rejected (ContactUpdateError msg)) \/
       (exists response msg,
           Contact_update store (update group) = Fulfilled response /\
           Contact_remove store (remove group) = Rejected (ContactUpdateError msg)))).
Proof.
  split.
  { intros Hu Hr.
    destruct (updateAndRemove_resolves_when_reasoned group store Hu Hr)
      as (outcome & E & _).
    now exists outcome. }
  intros outcome.
  destruct (Contact_update store (update group)) as [response | error] eqn:Hu.
  - destruct (Contact_remove store (remove group)) as [answer | error] eqn:Hr.
    + rewrite (updateAndRemove_removed _ _ _ _ Hu Hr). simpl.
      intros E. injection E as <-. simpl.
      split; [now right |]. split; [discriminate |].
      intros [[msg E] | (r & msg & _ & E)]; discriminate.
    + rewrite (updateAndRemove_remove_rejected _ _ _ _ Hu Hr). unfold caught; simpl.
      destruct error as [msg | msg | value]; simpl; intros E;
        try discriminate; injection E as <-; simpl.
      * split; [now left |]. split; [| reflexivity].
        intros _. right. now exists response, msg.
      * split; [now right |]. split; [discriminate |].
        intros [[m E] | (r & m & _ & E)]; discriminate.
  - rewrite (updateAndRemove_update_rejected _ _ _ Hu). unfold caught; simpl.
    destruct error as [msg | msg | value]; simpl; intros E;
      try discriminate; injection E as <-; simpl.
    + split; [now left |]. split; [| reflexivity]. intros _. left. now exists msg.
    + split; [now right |]. split; [discriminate |].
      intros [[m E] | (r & m & E & _)]; discriminate.
Qed.

Lemma updateAndRemove_updated_absent_iff_witness :
  (exists outcome,
      snd (run_async conflicting_store (updateAndRemove group_A)) = Fulfilled outcome) /\
  (forall outcome,
      snd (run_async conflicting_store (updateAndRemove group_A)) = Fulfilled outcome ->
      updated outcome = None).
Proof.
  destruct (updateAndRemove_updated_absent_iff group_A conflicting_store) as [Hex Hall].
  split; [apply Hex; exact I |].
  intros outcome E. apply (proj2 (Hall outcome E)). left. now exists "conflict".
Defined.



(** ** The summarizer on concatenated results *)

(** X9: summarizing two batches of outcomes one after the other is the same
    as summarizing each batch and joining the summaries field by field. *)
Theorem summarize_app (results1 results2 : list GroupOutcome) :
  summarizeMergeResults (results1 ++ results2) =
  {| agg_updated := agg_updated (summarizeMergeResults results1)
                    ++ agg_updated (summarizeMergeResults results2);
     agg_removed := agg_removed (summarizeMergeResults results1)
                    ++ agg_removed (summarizeMergeResults results2);
     agg_errors := agg_errors (summarizeMergeResults results1)
                   ++ agg_errors (summarizeMergeResults results2);
     agg_total := agg_total (summarizeMergeResults results1)
                  + agg_total (summarizeMergeResults results2) |}.
Proof.
  rewrite !summarize_fields; simpl.
  now rewrite !flat_map_app, map_app, sum_Z_app.
Qed.

(** ** The announcer inside a run *)

Lemma returned_results_replace (acts : list (Async GroupOutcome)) : forall i a result,
  nth_error acts i = Some a ->
  ~ returned a ->
  Permutation (result :: returned_results acts)
              (returned_results (replace_nth i (Return result) acts)).
Proof.
  unfold returned_results.
  induction acts as [| b acts IH]; intros [| i] a result Ha Hn; simpl in *;
    try discriminate.
  - injection Ha as ->. destruct a; simpl; try reflexivity. exfalso. now apply Hn.
  - specialize (IH i a result Ha Hn).
    destruct b; simpl; try exact IH.
    rewrite perm_swap. now constructor.
Qed.

Lemma returned_results_keep (acts : list (Async GroupOutcome)) : forall i a a',
  nth_error acts i = Some a ->
  ~ returned a -> ~ returned a' ->
  returned_results (replace_nth i a' acts) = returned_results acts.
Proof.
  unfold returned_results.
  induction acts as [| b acts IH]; intros [| i] a a' Ha Hn Hn'; simpl in *;
    try discriminate.
  - injection Ha as ->.
    destruct a; destruct a'; simpl; try reflexivity;
      try (exfalso; now apply Hn); exfalso; now apply Hn'.
  - now rewrite (IH i a a' Ha Hn Hn').
Qed.

Lemma returned_results_all (results : list GroupOutcome) :
  returned_results (map Return results) = results.
Proof.
  unfold returned_results.
  induction results as [| r rs IH]; simpl; [reflexivity | now rewrite IH].
Qed.

Lemma returned_results_launch (contacts : MergeRequest) :
  returned_results
    (map (fun entry : string * MergeGroup => updateAndRemove (snd entry)) contacts) = [].
Proof.
  unfold returned_results.
  induction contacts as [| e l IH]; [reflexivity |].
  cbn [map flat_map]. unfold updateAndRemove at 1. simpl. exact IH.
Qed.

Lemma settle_announcer_order total_ st ev resolved :
  mergeProgressAnnouncer resolved total_ = (progress st, announcer_events (log st)) ->
  Permutation resolved (returned_results (actions st)) ->
  mergeProgressAnnouncer (resolved ++ resolved_by st ev) total_
  = (progress (settle total_ st ev), announcer_events (log (settle total_ st ev))) /\
  Permutation (resolved ++ resolved_by st ev)
              (returned_results (actions (settle total_ st ev))).
Proof.
  intros H HP. unfold settle, resolved_by.
  destruct (nth_error (actions st) (fst ev)) as [a |] eqn:Ha;
    [| rewrite app_nil_r; now split].
  destruct (resume a (snd ev)) as [a' |] eqn:Hr; [| rewrite app_nil_r; now split].
  assert (Hn : ~ returned a).
  { pose proof (resume_pending _ _ _ Hr). destruct a; simpl; tauto. }
  destruct a' as [result | error | contact k | IDs k]; simpl; rewrite ?app_nil_r.
  - split.
    + rewrite mergeProgressAnnouncer_snoc, H, announcer_events_app. reflexivity.
    + rewrite <- (returned_results_replace _ _ _ result Ha Hn).
      rewrite Permutation_app_comm. simpl. now constructor.
  - split; [exact H |].
    now rewrite (returned_results_keep _ _ _ (Throw error) Ha Hn).
  - split; [now rewrite announcer_events_app, app_nil_r |].
    now rewrite (returned_results_keep _ _ _ (Call_update contact k) Ha Hn).
  - split; [now rewrite announcer_events_app, app_nil_r |].
    now rewrite (returned_results_keep _ _ _ (Call_remove IDs k) Ha Hn).
Qed.

Lemma resolutions_announced total_ sched : forall st resolved,
  mergeProgressAnnouncer resolved total_ = (progress st, announcer_events (log st)) ->
  Permutation resolved (returned_results (actions st)) ->
  mergeProgressAnnouncer (resolved ++ resolutions total_ st sched) total_
  = (progress (fold_left (settle total_) sched st),
     announcer_events (log (fold_left (settle total_) sched st))) /\
  Permutation (resolved ++ resolutions total_ st sched)
              (returned_results (actions (fold_left (settle total_) sched st))).
Proof.
  induction sched as [| ev rest IH]; intros st resolved H HP; simpl.
  - rewrite app_nil_r. now split.
  - destruct (settle_announcer_order total_ st ev resolved H HP) as [H' HP'].
    rewrite app_assoc. now apply IH.
Qed.

(** X10: in every run the counter and the 'progressBar' and 'contactUpdated'
    notifications are those [mergeProgressAnnouncer] produces for the results
    with which the scheduled settlements made the actions resolve, taken in
    the order of those settlements; once the run is finished these are the
    results [Promise.all] delivers, rearranged from key order into the order
    of resolution. *)
Theorem merge_announces_in_resolution_order (contacts : MergeRequest)
    (env : Environment) :
  mergeProgressAnnouncer (resolution_order contacts (schedule env))
                         (merge_total contacts)
  = (progress (merge contacts env), announcer_events (log (merge contacts env))) /\
  (forall results,
      Promise_all (actions (merge contacts env)) = Some results ->
      Permutation (resolution_order contacts (schedule env)) results).
Proof.
  assert (H0 : mergeProgressAnnouncer [] (merge_total contacts)
               = (progress (launch contacts), announcer_events (log (launch contacts)))).
  { simpl. f_equal.
    rewrite announcer_events_app. simpl. rewrite app_nil_r.
    generalize (map (fun entry : string * MergeGroup => updateAndRemove (snd entry))
                    contacts) as acts.
    induction acts as [| a rest IH]; simpl; [reflexivity |].
    now rewrite announcer_events_app, call_event_not_announcer. }
  assert (HP0 : Permutation [] (returned_results (actions (launch contacts))))
    by (simpl; now rewrite returned_results_launch).
  destruct (resolutions_announced (merge_total contacts) (schedule env)
                                  (launch contacts) [] H0 HP0) as [H HP].
  simpl in H, HP. fold (settle_all contacts (schedule env)) in H, HP.
  fold (resolution_order contacts (schedule env)) in H, HP.
  split.
  - rewrite H. unfold merge. rewrite finish_progress. f_equal.
    unfold finish. destruct (promise _); [| reflexivity].
    destruct (Promise_all _); [| reflexivity].
    simpl. now rewrite announcer_events_app, app_nil_r.
  - intros results HA. unfold merge in HA. rewrite finish_actions in HA.
    apply Promise_all_results in HA. rewrite HA in HP.
    now rewrite returned_results_all in HP.
Qed.

Lemma merge_announces_in_resolution_order_witness :
  resolution_order request_AB
    [(1%nat, UpdateSettled update_ok); (0%nat, UpdateSettled update_ok);
     (1%nat, RemoveSettled (remove_ok ["D3"]));
     (0%nat, RemoveSettled (remove_ok ["D1"; "D2"]))]
  = [ {| total := 2; updated := Some contact_C2; removed := Some ["D3"];
         errors := Some [] |};
      outcome_A ] /\
  announcer_events
    (log (merge request_AB
            {| schedule :=
                 [(1%nat, UpdateSettled update_ok); (0%nat, UpdateSettled update_ok);
                  (1%nat, RemoveSettled (remove_ok ["D3"]));
                  (0%nat, RemoveSettled (remove_ok ["D1"; "D2"]))];
               sync := Fulfilled VUndefined |}))
  = [EmitProgressBar (Fin 40); EmitContactUpdated (VFunction "update");
     EmitProgressBar (Fin 100); EmitContactUpdated (VFunction "update")] /\
  Permutation
    (resolution_order request_AB
       [(1%nat, UpdateSettled update_ok); (0%nat, UpdateSettled update_ok);
        (1%nat, RemoveSettled (remove_ok ["D3"]));
        (0%nat, RemoveSettled (remove_ok ["D1"; "D2"]))])
    [outcome_A;
     {| total := 2; updated := Some contact_C2; removed := Some ["D3"];
        errors := Some [] |}].
Proof.
  destruct (merge_announces_in_resolution_order request_AB
              {| schedule :=
                   [(1%nat, UpdateSettled update_ok); (0%nat, UpdateSettled update_ok);
                    (1%nat, RemoveSettled (remove_ok ["D3"]));
                    (0%nat, RemoveSettled (remove_ok ["D1"; "D2"]))];
                 sync := Fulfilled VUndefined |}) as [_ Hperm].
  split; [reflexivity |]. split; [reflexivity |].
  apply Hperm. reflexivity.
Defined.

(** * Properties of create, update and remove *)

Lemma existsb_app_true {A} (f : A -> bool) l1 l2 :
  existsb f (l1 ++ l2) = true <-> existsb f l1 = true \/ existsb f l2 = true.
Proof.
  rewrite existsb_app. apply orb_true_iff.
Qed.

Ltac split_end n :=
  match goal with
  | |- exists before, ?l = before ++ _ /\ _ =>
      exists (firstn (List.length l - n) l); split; [reflexivity |]
  end.

(** X11: when [remove] asks for confirmation (the default), it returns
    nothing and first opens the confirmation modal with the title and the
    question of the selection.  If the user leaves the modal alone nothing
    else happens; on a cancel the only other thing done is to close the
    modal; on a confirmation the deletion is requested from the store and
    handed to the activity tracker, then the modal is closed, and no other
    deletion is requested nor the modal touched again. *)
Theorem remove_waits_for_confirmation (contactIDs : option Selection)
    (confirm : option bool) (w : World) :
  asks_confirmation confirm = true ->
  returns (Editor.remove contactIDs confirm w) = None /\
  (decision w = Leaves ->
   effects (Editor.remove contactIDs confirm w)
   = [ConfirmModalActivate (Editor.confirmation_title (selected contactIDs))
                           (Editor.confirmation_message (selected contactIDs))]) /\
  (decision w = Cancels ->
   effects (Editor.remove contactIDs confirm w)
   = [ConfirmModalActivate (Editor.confirmation_title (selected contactIDs))
                           (Editor.confirmation_message (selected contactIDs));
      ConfirmModalDeactivate]) /\
  (decision w = Confirms ->
   exists after,
     effects (Editor.remove contactIDs confirm w)
     = [ConfirmModalActivate (Editor.confirmation_title (selected contactIDs))
                             (Editor.confirmation_message (selected contactIDs));
        Editor.deletion_call (selected contactIDs);
        Did NetworkTrack;
        ConfirmModalDeactivate] ++ after /\
     existsb is_deletion after = false /\
     existsb is_modal after = false).
Proof.
  intros Hc. unfold Editor.remove. unfold asks_confirmation in Hc. rewrite Hc.
  fold (selected contactIDs).
  unfold Editor.confirmDeletion, Editor.requestDeletion.
  cbn [effects returns now later settles].
  split; [reflexivity |].
  split; [intros ->; reflexivity |].
  split; [intros ->; reflexivity |].
  intros ->. cbn [app].
  eexists. split; [reflexivity |].
  destruct (selected contactIDs) as [| l]; cbn [app].
  - destruct (Contact_clear w) as [[] | e]; [| now split].
    destruct (eventManager_call w); now split.
  - destruct (Contact_remove (store w) l) as [a | e]; [| now split].
    destruct (eventManager_call w); now split.
Qed.

Lemma remove_waits_for_confirmation_witness :
  returns (Editor.remove (Some SelectAll) None cancelling_world) = None /\
  effects (Editor.remove (Some SelectAll) None cancelling_world)
  = [ConfirmModalActivate
       (getString "Delete all" "Title")
       (getString "Are you sure you want to delete all your contacts?" "Info");
     ConfirmModalDeactivate] /\
  exists after,
    effects (Editor.remove (Some (SelectIDs ["D1"])) None willing_world)
    = [ConfirmModalActivate
         (getString "Delete" "Title")
         (getPlural 1 "Are you sure you want to delete this contact?"
                    "Are you sure you want to delete the selected contacts?" "Info");
       Did (StoreRemove ["D1"]);
       Did NetworkTrack;
       ConfirmModalDeactivate] ++ after /\
    existsb is_deletion after = false /\
    existsb is_modal after = false.
Proof.
  destruct (remove_waits_for_confirmation (Some SelectAll) None cancelling_world eq_refl)
    as (Hr & _ & Hcancel & _).
  destruct (remove_waits_for_confirmation (Some (SelectIDs ["D1"])) None willing_world
                                          eq_refl)
    as (_ & _ & _ & Hconfirm).
  split; [exact Hr |]. split; [exact (Hcancel eq_refl) | exact (Hconfirm eq_refl)].
Defined.

(** X12: [remove] shows the success notification and leaves for the contact
    list exactly when the deletion went ahead and both the store call and the
    final [eventManager.call()] were fulfilled; it then ends with the
    notification, carrying the success text of the selection, followed by
    the move to 'secured.contacts', each done once.  A rejection of either
    call suppresses both. *)
Theorem remove_success_iff (contactIDs : option Selection) (confirm : option bool)
    (w : World) :
  (existsb is_success (effects (Editor.remove contactIDs confirm w)) = true
   <-> goes_ahead confirm w /\
       deletion_fulfilled (selected contactIDs) w /\
       exists value, eventManager_call w = Fulfilled value) /\
  (goes_ahead confirm w ->
   deletion_fulfilled (selected contactIDs) w ->
   (exists value, eventManager_call w = Fulfilled value) ->
   exists before,
     effects (Editor.remove contactIDs confirm w)
     = before ++ [NotificationSuccess (Editor.success_text (selected contactIDs));
                  StateGo "secured.contacts"] /\
     existsb is_success before = false).
Proof.
  unfold Editor.remove, goes_ahead, Editor.confirmDeletion, Editor.requestDeletion.
  fold (selected contactIDs). fold (asks_confirmation confirm).
  cbn [effects returns now later settles].
  destruct (asks_confirmation confirm).
  - destruct (decision w).
    + destruct (selected contactIDs) as [| l]; cbn [deletion_fulfilled].
      * destruct (Contact_clear w) as [[] | e].
        -- destruct (eventManager_call w) as [v | e].
           ++ split.
              ** split; [intros _ | reflexivity].
                 split; [now right |]. split; [now exists tt | now exists v].
              ** intros _ _ _. cbn [app]. split_end 2%nat. reflexivity.
           ++ split.
              ** split; [discriminate | intros (_ & _ & v & E); discriminate].
              ** intros _ _ [v E]. discriminate.
        -- split.
           ++ split; [discriminate | intros (_ & [u E] & _); discriminate].
           ++ intros _ [u E]. discriminate.
      * destruct (Contact_remove (store w) l) as [a | e].
        -- destruct (eventManager_call w) as [v | e].
           ++ split.
              ** split; [intros _ | reflexivity].
                 split; [now right |]. split; [now exists a | now exists v].
              ** intros _ _ _. cbn [app]. split_end 2%nat. reflexivity.
           ++ split.
              ** split; [discriminate | intros (_ & _ & v & E); discriminate].
              ** intros _ _ [v E]. discriminate.
        -- split.
           ++ split; [discriminate | intros (_ & [u E] & _); discriminate].
           ++ intros _ [u E]. discriminate.
    + split.
      * split; [discriminate | intros ([E | E] & _); discriminate].
      * intros [E | E]; discriminate.
    + split.
      * split; [discriminate | intros ([E | E] & _); discriminate].
      * intros [E | E]; discriminate.
  - destruct (selected contactIDs) as [| l]; cbn [deletion_fulfilled].
    + destruct (Contact_clear w) as [[] | e].
      * destruct (eventManager_call w) as [v | e].
        -- split.
           ++ split; [intros _ | reflexivity].
              split; [now left |]. split; [now exists tt | now exists v].
           ++ intros _ _ _. cbn [app]. split_end 2%nat. reflexivity.
        -- split.
           ++ split; [discriminate | intros (_ & _ & v & E); discriminate].
           ++ intros _ _ [v E]. discriminate.
      * split.
        -- split; [discriminate | intros (_ & [u E] & _); discriminate].
        -- intros _ [u E]. discriminate.
    + destruct (Contact_remove (store w) l) as [a | e].
      * destruct (eventManager_call w) as [v | e].
        -- split.
           ++ split; [intros _ | reflexivity].
              split; [now left |]. split; [now exists a | now exists v].
           ++ intros _ _ _. cbn [app]. split_end 2%nat. reflexivity.
        -- split.
           ++ split; [discriminate | intros (_ & _ & v & E); discriminate].
           ++ intros _ _ [v E]. discriminate.
      * split.
        -- split; [discriminate | intros (_ & [u E] & _); discriminate].
        -- intros _ [u E]. discriminate.
Qed.

Lemma remove_success_iff_witness :
  effects (Editor.remove (Some (SelectIDs ["D1"; "D2"])) (Some false) willing_world)
  = [Did (StoreRemove ["D1"; "D2"]); Did NetworkTrack; Did EventManagerCall;
     NotificationSuccess (getPlural 2 "Contact deleted" "Contacts deleted" "Success");
     StateGo "secured.contacts"] /\
  exists before,
    effects (Editor.remove (Some (SelectIDs ["D1"; "D2"])) (Some false) willing_world)
    = before ++ [NotificationSuccess
                   (Editor.success_text (selected (Some (SelectIDs ["D1"; "D2"]))));
                 StateGo "secured.contacts"] /\
    existsb is_success before = false.
Proof.
  split; [reflexivity |].
  apply (proj2 (remove_success_iff (Some (SelectIDs ["D1"; "D2"])) (Some false)
                                   willing_world)).
  - now left.
  - simpl. now eexists.
  - now eexists.
Defined.

(** X13: [remove] clears the contact cache and the contact e-mails exactly
    when the deletion went ahead, the selection was ['all'] and
    [Contact.clear()] was fulfilled: it then clears the cache, then the
    e-mails, each once, after [Contact.clear()] was called and just before
    [eventManager.call()].  Deleting listed identifiers never clears them. *)
Theorem remove_clears_caches_iff (contactIDs : option Selection)
    (confirm : option bool) (w : World) :
  (existsb is_cache_clear (effects (Editor.remove contactIDs confirm w)) = true
   <-> goes_ahead confirm w /\
       selected contactIDs = SelectAll /\
       exists u, Contact_clear w = Fulfilled u) /\
  (goes_ahead confirm w ->
   selected contactIDs = SelectAll ->
   (exists u, Contact_clear w = Fulfilled u) ->
   exists before after,
     effects (Editor.remove contactIDs confirm w)
     = before ++ [ContactCacheClear; ContactEmailsClear; Did EventManagerCall] ++ after /\
     In StoreClear before /\
     existsb is_cache_clear before = false /\
     existsb is_cache_clear after = false).
Proof.
  unfold Editor.remove, goes_ahead, Editor.confirmDeletion, Editor.requestDeletion.
  fold (selected contactIDs). fold (asks_confirmation confirm).
  cbn [effects returns now later settles].
  destruct (asks_confirmation confirm).
  - destruct (decision w).
    + destruct (selected contactIDs) as [| l].
      * destruct (Contact_clear w) as [[] | e].
        -- split.
           ++ split; [intros _ | reflexivity].
              split; [now right |]. split; [reflexivity | now exists tt].
           ++ intros _ _ _. cbn [app Editor.deletion_call].
              exists [ConfirmModalActivate (Editor.confirmation_title SelectAll)
                                           (Editor.confirmation_message SelectAll);
                      StoreClear; Did NetworkTrack; ConfirmModalDeactivate].
              eexists. split; [reflexivity |].
              split; [simpl; tauto |]. split; [reflexivity |].
              destruct (eventManager_call w); reflexivity.
        -- split.
           ++ split; [discriminate | intros (_ & _ & u & E); discriminate].
           ++ intros _ _ [u E]. discriminate.
      * split.
        -- split; [| intros (_ & E & _); discriminate].
           destruct (Contact_remove (store w) l) as [a | e]; cbn [app].
           ++ destruct (eventManager_call w); discriminate.
           ++ discriminate.
        -- intros _ E. discriminate.
    + split.
      * split; [discriminate | intros ([E | E] & _); discriminate].
      * intros [E | E]; discriminate.
    + split.
      * split; [discriminate | intros ([E | E] & _); discriminate].
      * intros [E | E]; discriminate.
  - destruct (selected contactIDs) as [| l].
    + destruct (Contact_clear w) as [[] | e].
      * split.
        -- split; [intros _ | reflexivity].
           split; [now left |]. split; [reflexivity | now exists tt].
        -- intros _ _ _. cbn [app Editor.deletion_call].
           exists [StoreClear; Did NetworkTrack].
           eexists. split; [reflexivity |].
           split; [simpl; tauto |]. split; [reflexivity |].
           destruct (eventManager_call w); reflexivity.
      * split.
        -- split; [discriminate | intros (_ & _ & u & E); discriminate].
        -- intros _ _ [u E]. discriminate.
    + split.
      * split; [| intros (_ & E & _); discriminate].
        destruct (Contact_remove (store w) l) as [a | e]; cbn [app].
        -- destruct (eventManager_call w); discriminate.
        -- discriminate.
      * intros _ E. discriminate.
Qed.

Lemma remove_clears_caches_iff_witness :
  effects (Editor.remove (Some SelectAll) (Some false) offline_world)
  = [StoreClear; Did NetworkTrack; ContactCacheClear; ContactEmailsClear;
     Did EventManagerCall] /\
  exists before after,
    effects (Editor.remove (Some SelectAll) (Some false) offline_world)
    = before ++ [ContactCacheClear; ContactEmailsClear; Did EventManagerCall] ++ after /\
    In StoreClear before /\
    existsb is_cache_clear before = false /\
    existsb is_cache_clear after = false.
Proof.
  split; [reflexivity |].
  apply (proj2 (remove_clears_caches_iff (Some SelectAll) (Some false) offline_world)).
  - now left.
  - reflexivity.
  - now exists tt.
Defined.




(** X16: none of the notifications that [merge], [create], [update] and
    [remove] emit on 'contacts' has a type on which the editor's own listener
    acts, so the editor never re-enters itself. *)
Theorem editor_ignores_its_own_notifications (e : Effect) (type : string) :
  emitted e = Some ("contacts", type) -> Editor.on_contacts type = [].
Proof.
  destruct e as [ev | | | | | | | | | | |]; simpl; try discriminate.
  - destruct ev; simpl; try discriminate; intros E; injection E as <-; reflexivity.
  - intros E; injection E as <-; reflexivity.
  - intros E; injection E as <-; reflexivity.
Qed.

Lemma editor_ignores_its_own_notifications_witness :
  emitted (Did (EmitContactsMerged empty_summary)) = Some ("contacts", "contactsMerged") /\
  Editor.on_contacts "contactsMerged" = [].
Proof.
  split; [reflexivity |].
  apply (editor_ignores_its_own_notifications (Did (EmitContactsMerged empty_summary))).
  reflexivity.
Defined.

(** * Properties of the toolbar *)

(** ** The class list under the editor state *)

Lemma contains_In token tokens : contains token tokens = true <-> In token tokens.
Proof.
  unfold contains. rewrite existsb_exists. split.
  - intros (t & Ht & E). apply String.eqb_eq in E. now subst.
  - intros H. exists token. split; [exact H | apply String.eqb_refl].
Qed.

Lemma In_classList_remove class token tokens :
  In class (classList_remove token tokens) <-> In class tokens /\ class <> token.
Proof.
  unfold classList_remove. rewrite filter_In. split.
  - intros [H E]. split; [exact H |]. intros ->. now rewrite String.eqb_refl in E.
  - intros [H Hne]. split; [exact H |].
    destruct (String.eqb_spec token class); [congruence | reflexivity].
Qed.

Lemma In_classList_add class token tokens :
  In class (classList_add token tokens) <-> In class tokens \/ class = token.
Proof.
  unfold classList_add. destruct (contains token tokens) eqn:E.
  - apply contains_In in E. split; [auto | intros [H | ->]; assumption].
  - rewrite in_app_iff. simpl. split.
    + intros [H | [-> | []]]; [now left | now right].
    + intros [H | ->]; [now left | right; now left].
Qed.

Lemma NoDup_classList_add token tokens :
  NoDup tokens -> NoDup (classList_add token tokens).
Proof.
  intros H. unfold classList_add. destruct (contains token tokens) eqn:E; [exact H |].
  apply NoDup_app; [exact H | repeat constructor; intros [] |].
  intros t Ht [<- | []].
  apply contains_In in Ht. congruence.
Qed.

Lemma NoDup_classList_remove token tokens :
  NoDup tokens -> NoDup (classList_remove token tokens).
Proof.
  apply NoDup_filter.
Qed.

Lemma popover_class_cases p :
  popover_class p = None \/ popover_class p = Some "open-link"
  \/ popover_class p = Some "open-image".
Proof.
  unfold popover_class, is_popover. destruct p as [name |]; [| now left].
  destruct (String.eqb_spec name "makeLink") as [-> | _]; simpl; [right; now left |].
  destruct (String.eqb_spec name "insertImage") as [-> | _]; simpl;
    [right; now right | now left].
Qed.

(** X17: [onStateChange] keeps the element in step with the popover: if the
    element showed the old state's popover, it shows the new one's (of
    'open-link' and 'open-image' it has exactly the class of the open popover);
    opening a popover also hides the second row; the class list stays free
    of duplicates and no other class is touched. *)
Theorem onStateChange_tracks_popover (oldState newState : EditorState) (el : Element) :
  NoDup (classList el) ->
  shows (popover oldState) el ->
  shows (popover newState) (onStateChange oldState newState el) /\
  NoDup (classList (onStateChange oldState newState el)) /\
  (is_popover (popover newState) = true ->
   ~ In SUB_ROW (classList (onStateChange oldState newState el))) /\
  (forall class,
      ~ In class ["open-link"; "open-image"; SUB_ROW] ->
      (In class (classList (onStateChange oldState newState el))
       <-> In class (classList el))).
Proof.
  intros Hnd Hshows.
  unfold onStateChange.
  set (el1 := if option_string_eqb (editorMode oldState) (editorMode newState)
              then el
              else {| classList := classList el;
                      data_editor_text := Some (to_attribute (editorMode newState)) |}).
  assert (E1 : classList el1 = classList el)
    by (unfold el1; now destruct (option_string_eqb _ _)).
  clearbody el1.
  assert (Hnew : is_popover (popover newState) = true
                 <-> popover_class (popover newState) <> None).
  { unfold popover_class, is_popover.
    destruct (popover newState) as [name |]; simpl;
      [| split; [discriminate | congruence]].
    destruct (String.eqb_spec name "makeLink") as [-> | _]; simpl;
      [split; [intros _; discriminate | reflexivity] |].
    destruct (String.eqb_spec name "insertImage") as [-> | _]; simpl;
      [split; [intros _; discriminate | reflexivity] |].
    split; [discriminate | congruence]. }
  assert (Hold : forall class, In class ["open-link"; "open-image"] ->
                   ~ In class
                       (classList
                          match popover_class (popover oldState) with
                          | Some class0 =>
                              {| classList := classList_remove class0 (classList el1);
                                 data_editor_text := data_editor_text el1 |}
                          | None => el1
                          end)).
  { intros class Hc Hin. specialize (Hshows class Hc).
    destruct (popover_class (popover oldState)) as [oc |]; simpl in Hin.
    - apply In_classList_remove in Hin. destruct Hin as [Hin Hne].
      rewrite E1 in Hin. apply Hshows in Hin. congruence.
    - rewrite E1 in Hin. apply Hshows in Hin. discriminate. }
  assert (Hkeep : forall class,
             ~ In class ["open-link"; "open-image"; SUB_ROW] ->
             (In class
                (classList
                   match popover_class (popover oldState) with
                   | Some class0 =>
                       {| classList := classList_remove class0 (classList el1);
                          data_editor_text := data_editor_text el1 |}
                   | None => el1
                   end)
              <-> In class (classList el))).
  { intros class Hc.
    destruct (popover_class_cases (popover oldState)) as [-> | [-> | ->]]; simpl;
      rewrite ?In_classList_remove, E1; [tauto | |];
      (split; [tauto |]; intros H; split; [exact H |]; intros ->; apply Hc; simpl; tauto). }
  assert (Hnd2 : NoDup
             (classList
                match popover_class (popover oldState) with
                | Some class0 =>
                    {| classList := classList_remove class0 (classList el1);
                       data_editor_text := data_editor_text el1 |}
                | None => el1
                end)).
  { destruct (popover_class (popover oldState)); simpl; rewrite E1;
      [now apply NoDup_classList_remove | exact Hnd]. }
  set (el2 := match popover_class (popover oldState) with
              | Some class0 =>
                  {| classList := classList_remove class0 (classList el1);
                     data_editor_text := data_editor_text el1 |}
              | None => el1
              end) in *.
  clearbody el2. unfold shows.
  destruct (popover_class_cases (popover newState)) as [En | [En | En]];
    rewrite En in *; simpl.
  - split; [| split; [exact Hnd2 | split; [| exact Hkeep]]].
    + intros class Hc. split; [intros Hin; now apply Hold in Hin | discriminate].
    + intros Hp. apply Hnew in Hp. congruence.
  - split; [| split; [| split]].
    + intros class Hc. rewrite In_classList_add, In_classList_remove. split.
      * intros [[Hin _] | ->]; [now apply Hold in Hin | reflexivity].
      * intros E. injection E as <-. now right.
    + apply NoDup_classList_add. now apply NoDup_classList_remove.
    + intros _. rewrite In_classList_add, In_classList_remove.
      intros [[_ Hne] | E]; [congruence | discriminate E].
    + intros class Hc. rewrite In_classList_add, In_classList_remove, <- Hkeep by exact Hc.
      split; [intros [[H _] | ->]; [exact H | exfalso; apply Hc; simpl; tauto] |].
      intros H. left. split; [exact H |]. intros ->. apply Hc. simpl. tauto.
  - split; [| split; [| split]].
    + intros class Hc. rewrite In_classList_add, In_classList_remove. split.
      * intros [[Hin _] | ->]; [now apply Hold in Hin | reflexivity].
      * intros E. injection E as <-. now right.
    + apply NoDup_classList_add. now apply NoDup_classList_remove.
    + intros _. rewrite In_classList_add, In_classList_remove.
      intros [[_ Hne] | E]; [congruence | discriminate E].
    + intros class Hc. rewrite In_classList_add, In_classList_remove, <- Hkeep by exact Hc.
      split; [intros [[H _] | ->]; [exact H | exfalso; apply Hc; simpl; tauto] |].
      intros H. left. split; [exact H |]. intros ->. apply Hc. simpl. tauto.
Qed.

Lemma onStateChange_tracks_popover_witness :
  classList (onStateChange {| popover := Some "makeLink"; editorMode := None |}
                           {| popover := Some "insertImage"; editorMode := Some "plain" |}
                           {| classList := ["squire-toolbar"; SUB_ROW; "open-link"];
                              data_editor_text := None |})
    = ["squire-toolbar"; "open-image"] /\
  shows (Some "insertImage")
        (onStateChange {| popover := Some "makeLink"; editorMode := None |}
                       {| popover := Some "insertImage"; editorMode := Some "plain" |}
                       {| classList := ["squire-toolbar"; SUB_ROW; "open-link"];
                          data_editor_text := None |}).
Proof.
  split; [reflexivity |].
  apply (onStateChange_tracks_popover
           {| popover := Some "makeLink"; editorMode := None |}
           {| popover := Some "insertImage"; editorMode := Some "plain" |}
           {| classList := ["squire-toolbar"; SUB_ROW; "open-link"];
              data_editor_text := None |}).
  - repeat constructor; simpl; intuition discriminate.
  - intros class [<- | [<- | []]]; simpl; split; intros H;
      try reflexivity; try discriminate; intuition discriminate.
Defined.

(** ** The direction attribute *)

Lemma direction_at_nonempty s group :
  direction_at s = Some group -> s <> EmptyString /\ (group = "dir=rtl" \/ group = "dir=ltr").
Proof.
  unfold direction_at. destruct s as [| c s]; [discriminate |].
  destruct (String.prefix "[dir=rtl]" (String c s)).
  - intros E. injection E as <-. split; [discriminate | now left].
  - destruct (String.prefix "[dir=ltr]" (String c s)); [| discriminate].
    intros E. injection E as <-. split; [discriminate | now right].
Qed.

Lemma search_group s : forall index found group,
  search s index = Some (found, group) -> group = "dir=rtl" \/ group = "dir=ltr".
Proof.
  induction s as [| c s IH]; intros index found group; simpl.
  - destruct (direction_at "") eqn:E; [| discriminate].
    apply direction_at_nonempty in E. destruct E as [E _]. congruence.
  - destruct (direction_at (String c s)) as [g |] eqn:E.
    + intros H. injection H as <- <-. now apply direction_at_nonempty in E.
    + apply IH.
Qed.

(** X18: whatever the string and whatever state the shared regex was left
    in, [getDirectionClass] answers 'dir-rtl' or 'dir-ltr'. *)
Theorem getDirectionClass_values (str : string) (lastIndex : nat) :
  fst (getDirectionClass str lastIndex) = "dir-rtl" \/
  fst (getDirectionClass str lastIndex) = "dir-ltr".
Proof.
  unfold getDirectionClass, exec.
  destruct (String.length str <? lastIndex)%nat; [now right |].
  destruct (search (drop lastIndex str) lastIndex) as [[found group] |] eqn:E;
    [| now right].
  apply search_group in E. destruct E as [-> | ->]; [now left | now right].
Qed.

Lemma strip_length s : forall skip,
  (String.length (strip skip s) <= String.length s)%nat.
Proof.
  induction s as [| c s IH]; intros skip; [simpl; lia |].
  cbn [strip]. destruct skip as [| k].
  - destruct (direction_at (String c s)).
    + specialize (IH 8%nat). simpl. lia.
    + specialize (IH 0%nat). simpl. lia.
  - specialize (IH k). simpl. lia.
Qed.

Lemma strip_no_match s : forall index, search s index = None -> strip 0 s = s.
Proof.
  induction s as [| c s IH]; intros index; [reflexivity |].
  cbn [search strip]. destruct (direction_at (String c s)); [discriminate |].
  intros H. now rewrite (IH _ H).
Qed.

Lemma strip_match_shorter s : forall index r,
  search s index = Some r -> (String.length (strip 0 s) < String.length s)%nat.
Proof.
  induction s as [| c s IH]; intros index r.
  - cbn [search]. destruct (direction_at "") eqn:E; [| discriminate].
    apply direction_at_nonempty in E. destruct E as [E _]. congruence.
  - cbn [search strip]. destruct (direction_at (String c s)).
    + intros _. pose proof (strip_length s 8). simpl. lia.
    + intros H. specialize (IH _ _ H). simpl. lia.
Qed.

(** X19: [stripDirectionAttribute] never lengthens a string, and returns it
    unchanged exactly when it holds no direction attribute; in every case it
    leaves the shared regex at index 0. *)
Theorem stripDirectionAttribute_fixpoint_iff (str : string) (lastIndex : nat) :
  (String.length (fst (stripDirectionAttribute str lastIndex)) <= String.length str)%nat /\
  (fst (stripDirectionAttribute str lastIndex) = str <-> search str 0 = None) /\
  snd (stripDirectionAttribute str lastIndex) = O.
Proof.
  unfold stripDirectionAttribute; simpl.
  split; [apply strip_length |]. split; [| reflexivity].
  split.
  - intros E. destruct (search str 0) as [r |] eqn:Hs; [| reflexivity].
    apply strip_match_shorter in Hs. rewrite E in Hs. lia.
  - apply strip_no_match.
Qed.

Lemma drop_length n : forall s,
  (String.length s <= n)%nat -> drop n s = EmptyString.
Proof.
  induction n as [| n IH]; intros [| c s]; simpl; intros H; try reflexivity; try lia.
  apply IH. lia.
Qed.

Lemma search_from s : forall index found group,
  search s index = Some (found, group) -> (index <= found)%nat.
Proof.
  induction s as [| c s IH]; intros index found group; cbn [search].
  - destruct (direction_at ""); [| discriminate]. intros E. injection E as <- _. lia.
  - destruct (direction_at (String c s)).
    + intros E. injection E as <- _. lia.
    + intros H. apply IH in H. lia.
Qed.

(** X20: the shared regex remembers where its last match ended.  Called on
    a fresh regex, [getDirectionClass] answers for the first attribute of the
    string; called again on the same string it only looks after that
    attribute, so when the string has no second one it answers 'dir-ltr',
    even for a 'rtl' string, and resets the regex. *)
Theorem getDirectionClass_second_call (str : string) (found : nat) (group : string) :
  search str 0 = Some (found, group) ->
  search (drop (found + 9) str) (found + 9) = None ->
  getDirectionClass str 0 = (replace_first "=" "-" group, (found + 9)%nat) /\
  getDirectionClass str (snd (getDirectionClass str 0)) = ("dir-ltr", O).
Proof.
  intros H1 H2.
  assert (E1 : getDirectionClass str 0 = (replace_first "=" "-" group, (found + 9)%nat)).
  { unfold getDirectionClass, exec. simpl. now rewrite H1. }
  split; [exact E1 |].
  rewrite E1; simpl. unfold getDirectionClass, exec.
  destruct (String.length str <? found + 9)%nat; [reflexivity |].
  now rewrite H2.
Qed.

Lemma getDirectionClass_second_call_witness :
  getDirectionClass "DIV[dir=rtl]" 0 = ("dir-rtl", 12%nat) /\
  getDirectionClass "DIV[dir=rtl]" (snd (getDirectionClass "DIV[dir=rtl]" 0))
    = ("dir-ltr", O).
Proof.
  apply (getDirectionClass_second_call "DIV[dir=rtl]" 3 "dir=rtl"); reflexivity.
Defined.

(** ** The class list rebuilt on a path change *)

Lemma tokens_from_space a : forall current b,
  tokens_from current (String.append a (String " " b))
  = tokens_from current a ++ tokens_from EmptyString b.
Proof.
  induction a as [| c a IH]; intros current b; simpl.
  - destruct (truthy current); reflexivity.
  - destruct (is_ascii_whitespace c).
    + now rewrite IH, app_assoc.
    + apply IH.
Qed.

Lemma tokens_join_cons part rest :
  tokens (join " " (part :: rest)) = tokens part ++ tokens (join " " rest).
Proof.
  destruct rest as [| next rest].
  - simpl. now rewrite app_nil_r.
  - change (join " " (part :: next :: rest))
      with (String.append part (String " " (join " " (next :: rest)))).
    apply tokens_from_space.
Qed.

Lemma In_tokens_join token parts :
  In token (tokens (join " " parts))
  <-> exists part, In part parts /\ In token (tokens part).
Proof.
  induction parts as [| part rest IH].
  - simpl. split; [intros [] | intros (p & [] & _)].
  - rewrite tokens_join_cons, in_app_iff, IH. split.
    + intros [H | (p & Hp & Ht)]; [exists part; split; [now left | exact H] |].
      exists p. split; [now right | exact Ht].
    + intros (p & [<- | Hp] & Ht); [now left | right; now exists p].
Qed.

Lemma In_ordered_set token l : In token (ordered_set l) <-> In token l.
Proof.
  induction l as [| t rest IH]; simpl; [tauto |].
  rewrite filter_In, IH. split.
  - intros [H | [H _]]; auto.
  - intros [H | H]; [now left |].
    destruct (String.eqb_spec t token) as [E | Hne]; [now left |].
    right. split; [exact H | reflexivity].
Qed.

Lemma NoDup_ordered_set l : NoDup (ordered_set l).
Proof.
  induction l as [| t rest IH]; simpl; constructor.
  - rewrite filter_In. intros [_ E]. now rewrite String.eqb_refl in E.
  - now apply NoDup_filter.
Qed.

Lemma getDirectionClass_fresh path :
  fst (getDirectionClass path 0) = first_direction path.
Proof.
  unfold getDirectionClass, exec, first_direction. simpl.
  destruct (search path 0) as [[found group] |]; reflexivity.
Qed.

Lemma first_direction_tokens path : tokens (first_direction path) = [first_direction path].
Proof.
  unfold first_direction.
  destruct (search path 0) as [[found group] |] eqn:E; [| reflexivity].
  apply search_group in E. destruct E as [-> | ->]; reflexivity.
Qed.

(** The tokens of the class name a path change writes. *)
Lemma onPathChange_tokens HEADER_CLASS path node lastIndex token :
  strip 0 path <> "(selection)" ->
  In token (classList (fst (onPathChange HEADER_CLASS path node lastIndex)))
  <-> token = "squireToolbar-container" \/ token = "squire-toolbar" \/
      In token (tokens (classNames HEADER_CLASS (strip 0 path))) \/
      (token = SUB_ROW /\ In SUB_ROW (classList node)) \/
      token = first_direction path.
Proof.
  intros Hsel. unfold onPathChange, stripDirectionAttribute.
  cbv beta iota zeta.
  destruct (String.eqb_spec (strip 0 path) "(selection)") as [E | _]; [contradiction |].
  pose proof (getDirectionClass_fresh path) as Hdir.
  destruct (getDirectionClass path 0) as [directionClass lastIndex2].
  cbn [fst] in Hdir. subst directionClass.
  cbv beta iota zeta. cbn [fst set_className classList].
  rewrite In_ordered_set, In_tokens_join.
  unfold getDefaultClass.
  change (CLASSNAME "POPOVER_IMAGE") with (@None string).
  change (CLASSNAME "POPOVER_LINK") with (@None string).
  change (CLASSNAME "SUB_ROW") with (Some SUB_ROW).
  change (CLASSNAME "CONTAINER") with (Some "squireToolbar-container squire-toolbar").
  cbn [to_attribute].
  assert (Hfd : truthy (first_direction path) = true).
  { unfold first_direction. destruct (search path 0) as [[found group] |] eqn:E;
      [| reflexivity].
    apply search_group in E. destruct E as [-> | ->]; reflexivity. }
  assert (Hsub : contains SUB_ROW (classList node) = true <-> In SUB_ROW (classList node))
    by apply contains_In.
  set (names := classNames HEADER_CLASS (strip 0 path)).
  assert (Hnames : truthy names = false -> tokens names = []).
  { unfold truthy. destruct (String.eqb_spec names ""); [| discriminate].
    intros _. now rewrite e. }
  unfold truthy_entries. cbn [flat_map app].
  change (truthy "squireToolbar-container squire-toolbar") with true.
  change (truthy SUB_ROW) with true. change (truthy "") with false.
  rewrite Hfd.
  destruct (truthy names) eqn:En;
    destruct (contains SUB_ROW (classList node)) eqn:Es;
    destruct (contains "undefined" (classList node)); cbn [app];
    (split;
     [ intros (part & Hpart & Ht); simpl in Hpart;
       repeat (destruct Hpart as [<- | Hpart]);
       try contradiction;
       try (rewrite first_direction_tokens in Ht; destruct Ht as [<- | []]; tauto);
       try (simpl in Ht; destruct Ht as [<- | [<- | []]]; tauto);
       try (destruct Ht as [<- | []]; right; right; right; left;
            split; [reflexivity | now apply Hsub]);
       tauto
     | intros [-> | [-> | [Ht | [[-> Hin] | ->]]]];
       [ exists "squireToolbar-container squire-toolbar"; split; simpl; tauto
       | exists "squireToolbar-container squire-toolbar"; split; simpl; tauto
       | try (rewrite (Hnames eq_refl) in Ht; contradiction);
         exists names; split; simpl; tauto
       | try (apply Hsub in Hin; discriminate);
         exists SUB_ROW; split; simpl; tauto
       | exists (first_direction path); split;
         [simpl; tauto | rewrite first_direction_tokens; now left] ] ]).
Qed.

(** X21: a path change leaves the node alone when the stripped path is
    '(selection)'.  Otherwise it rewrites the class list from scratch: the
    new list has no duplicates and holds exactly the two container classes,
    the class names computed from the stripped path, the second-row class if
    the node had it, and the direction class of the first direction
    attribute of the path ('dir-ltr' if there is none) whatever state the
    shared regex was in. *)
Theorem onPathChange_class_list (HEADER_CLASS path : string) (node : Element)
    (lastIndex : nat) :
  (strip 0 path = "(selection)" ->
   fst (onPathChange HEADER_CLASS path node lastIndex) = node) /\
  (strip 0 path <> "(selection)" ->
   NoDup (classList (fst (onPathChange HEADER_CLASS path node lastIndex))) /\
   forall token,
     In token (classList (fst (onPathChange HEADER_CLASS path node lastIndex)))
     <-> token = "squireToolbar-container" \/ token = "squire-toolbar" \/
         In token (tokens (classNames HEADER_CLASS (strip 0 path))) \/
         (token = SUB_ROW /\ In SUB_ROW (classList node)) \/
         token = first_direction path).
Proof.
  split.
  - intros E. unfold onPathChange, stripDirectionAttribute. cbv beta iota zeta.
    now rewrite E.
  - intros Hsel. split; [| intros token; now apply onPathChange_tokens].
    unfold onPathChange, stripDirectionAttribute. cbv beta iota zeta.
    destruct (String.eqb_spec (strip 0 path) "(selection)") as [E | _];
      [contradiction |].
    destruct (getDirectionClass path 0) as [directionClass lastIndex2].
    cbv beta iota zeta. cbn [fst set_className classList].
    apply NoDup_ordered_set.
Qed.

Lemma onPathChange_class_list_witness :
  classList (fst (onPathChange "h4" "HTML>BODY>DIV.h4.align-center[dir=rtl]>B>I"
                    {| classList := ["squire-toolbar"; SUB_ROW];
                       data_editor_text := None |} 7))
    = ["squireToolbar-container"; "squire-toolbar"; "size"; "align-center"; "b"; "i";
       SUB_ROW; "dir-rtl"] /\
  NoDup (classList (fst (onPathChange "h4" "HTML>BODY>DIV.h4.align-center[dir=rtl]>B>I"
                           {| classList := ["squire-toolbar"; SUB_ROW];
                              data_editor_text := None |} 7))).
Proof.
  destruct (proj2 (onPathChange_class_list
                     "h4" "HTML>BODY>DIV.h4.align-center[dir=rtl]>B>I"
                     {| classList := ["squire-toolbar"; SUB_ROW];
                        data_editor_text := None |} 7)) as [Hnd _].
  - vm_compute. discriminate.
  - split; [vm_compute; reflexivity | exact Hnd].
Defined.

(** X22: the class of an open popover does not survive a path change: the
    entries meant to carry it over are looked up under keys [CLASSNAME] does
    not have, so unless the path itself yields 'open-link' or 'open-image'
    the rewritten class list shows no popover, whichever was shown before. *)
Theorem onPathChange_drops_popover_class (HEADER_CLASS path : string)
    (node : Element) (lastIndex : nat) :
  strip 0 path <> "(selection)" ->
  (forall class, In class ["open-link"; "open-image"] ->
                 ~ In class (tokens (classNames HEADER_CLASS (strip 0 path)))) ->
  shows None (fst (onPathChange HEADER_CLASS path node lastIndex)).
Proof.
  intros Hsel Hpath class Hclass.
  rewrite (onPathChange_tokens _ _ _ _ _ Hsel).
  split; [| discriminate].
  assert (Hd : first_direction path = "dir-rtl" \/ first_direction path = "dir-ltr").
  { unfold first_direction. destruct (search path 0) as [[found group] |] eqn:E;
      [| now right].
    apply search_group in E. destruct E as [-> | ->]; [now left | now right]. }
  intros [-> | [-> | [Ht | [[-> _] | ->]]]].
  - destruct Hclass as [E | [E | []]]; discriminate.
  - destruct Hclass as [E | [E | []]]; discriminate.
  - now apply Hpath in Ht.
  - destruct Hclass as [E | [E | []]]; discriminate.
  - destruct Hd as [E | E]; rewrite E in Hclass;
      destruct Hclass as [E' | [E' | []]]; discriminate.
Qed.

Lemma onPathChange_drops_popover_class_witness :
  In "open-link" ["squire-toolbar"; "open-link"] /\
  classList (fst (onPathChange "h4" "HTML>BODY>DIV>B"
                    {| classList := ["squire-toolbar"; "open-link"];
                       data_editor_text := None |} 0))
    = ["squireToolbar-container"; "squire-toolbar"; "b"; "dir-ltr"] /\
  shows None (fst (onPathChange "h4" "HTML>BODY>DIV>B"
                     {| classList := ["squire-toolbar"; "open-link"];
                        data_editor_text := None |} 0)).
Proof.
  split; [simpl; tauto |]. split; [vm_compute; reflexivity |].
  apply (onPathChange_drops_popover_class "h4" "HTML>BODY>DIV>B"
           {| classList := ["squire-toolbar"; "open-link"];
              data_editor_text := None |} 0).
  - vm_compute. discriminate.
  - intros class [<- | [<- | []]]; vm_compute; intuition discriminate.
Defined.
